(** * hlsclient: the playlist worker ([hlsclient/workers/playlist.py])

    A shallow embedding of [PlaylistWorker]: the polling loop of
    [run_forever], the lock protocol of [can_run] / [other_is_running],
    the shutdown routine [stop] and the selection of streams in
    [filter_playlists_for_worker].

    The worker is a sequential Python program that talks to collaborators
    which are not part of the module: the lock object
    ([ExpiringLinkLockFile]), the discovery / balancer / consumer functions,
    the clock, the random generator and the operating system (SIGTERM).
    They are gathered in one interface, [Environment]; the worker is written
    once over that interface, in a monad that threads the state of the
    environment, propagates Python exceptions and records every interaction
    in a trace. Exceptions and signals reach the worker at its calls of the
    collaborators: any of them may return, raise, or be hit by SIGTERM. *)

From stdpp Require Import base option list gmap strings.
From Stdlib Require Import ZArith Lia.

Local Open Scope string_scope.
Local Open Scope list_scope.
Local Open Scope Z_scope.

(** ** Exceptions, results and events *)

(** The exception classes the module distinguishes. [LockTimeout],
    [KeyError] and [OtherError] (any other subclass of [Exception]) are
    caught by [except Exception]; [KeyboardInterrupt] is not. [SystemExit]
    is raised by [sys.exit] only, and is the [Exit] result below. *)
Inductive exn : Type :=
  | LockTimeout
  | KeyError
  | OtherError
  | KeyboardInterrupt.

Definition is_Exception (x : exn) : bool :=
  match x with
  | LockTimeout | KeyError | OtherError => true
  | KeyboardInterrupt => false
  end.

(** How a piece of worker code ends: it returns a value, it raises an
    exception, [sys.exit(status)] was called and [SystemExit] is travelling
    up the stack, or the process was killed by a signal whose default
    action was in force (no Python code runs after that, no [finally]
    clause either). *)
Inductive result (A : Type) : Type :=
  | Ret (a : A)
  | Raise (x : exn)
  | Exit (status : Z)
  | Killed (signal : Z).
Arguments Ret {A} a.
Arguments Raise {A} x.
Arguments Exit {A} status.
Arguments Killed {A} signal.

(** [signal.SIGTERM] *)
Definition SIGTERM : Z := 15.

(** How a collaborator answers a call: it returns, it raises (Ctrl-C
    during the call is the answer [Throw KeyboardInterrupt]), or SIGTERM is
    delivered while the call is in progress; what happens then depends on
    whether [run_forever] has installed its handler yet. *)
Inductive answer (A : Type) : Type :=
  | Ans (a : A)
  | Throw (x : exn)
  | Sigterm.
Arguments Ans {A} a.
Arguments Throw {A} x.
Arguments Sigterm {A}.

Inductive call : Type :=
  | IsLocked
  | IAmLocking
  | Expired (tolerance : Z)
  | BreakLock
  | Acquire (timeout : Z)
  | UpdateLock
  | ReleaseIfLocking
  | DiscoverPlaylists
  | GetServers
  | BalancerUpdate
  | ConsumeFromBalancer
  | Sleep
  | DatetimeNow
  | SetupLogging
  | NewBalancer
  | RandomRandint (a b : Z).

Inductive outcome : Type :=
  | Returned
  | ReturnedBool (b : bool)
  | ReturnedZ (z : Z)
  | Raised (x : exn)
  | Interrupted.

Inductive level : Type := DEBUG | INFO | WARNING | ERROR.

Inductive event : Type :=
  | Call (c : call) (o : outcome)
  | Log (l : level) (msg : string).

Definition trace : Type := list event.

(** ** Data *)

(** A combine action: [action['output']] and [action['input']]. *)
Record Action : Type := { output : string; input : list string }.

(** The [config] object, restricted to the options the worker reads. *)
Record Config : Type := {
  cfg_destination : string;
  cfg_encrypt : bool;
  cfg_not_modified_tolerance : Z;
  cfg_lock_path : string;
  cfg_lock_timeout : Z;
  cfg_lock_expiration : Z
}.

(** The attributes assigned by [__init__] and [setup_lock]. *)
Record WorkerInit : Type := {
  playlist : string;
  is_variant : bool;
  config : Config;
  lock_timeout : Z;
  lock_expiration : Z
}.

(** The worker once [setup] has run: [destination], [encrypt] and
    [death_time] exist from then on. Times are microseconds. *)
Record PlaylistWorker : Type := {
  init : WorkerInit;
  destination : string;
  encrypt : bool;
  death_time : Z
}.

Definition MAX_TTL_IN_SECONDS : Z := 600.

(** [datetime.timedelta(seconds=n)] *)
Definition timedelta_seconds (n : Z) : Z := n * 1000000.

(** ** The collaborators *)

(** [E] is the state of everything outside the worker (lock file, other
    processes, clock, network); [PL] is what [discover_playlists] returns,
    [V] the description of one stream and [P] what [get_servers] returns.
    Every operation may change [E], so the activity of other processes
    between two calls is part of the interface.

    Signal handlers run on the stack of the code they interrupt:
    [recursion_room e] is how many nested runs of the handler still fit
    under the interpreter's recursion limit. [entropy] is the next draw of
    the random generator. *)
Class Environment (E PL V P : Type) : Type := {
  (* hlsclient.lock.ExpiringLinkLockFile *)
  is_locked : E → answer bool * E;
  i_am_locking : E → answer bool * E;
  expired : Z → E → answer bool * E;
  break_lock : E → answer () * E;
  acquire : Z → E → answer () * E;
  update_lock : E → answer () * E;
  release_if_locking : E → answer () * E;
  (* hlsclient.discover, hlsclient.combine, hlsclient.balancer,
     hlsclient.consumer *)
  discover_playlists : Config → E → answer PL * E;
  streams_of : PL → gmap string V;
  get_actions : PL → string → list Action;
  get_servers : gmap string (gmap string V) → E → answer P * E;
  balancer_new : Z → E → answer () * E;
  balancer_update : P → E → answer () * E;
  consume_from_balancer :
    gmap string (gmap string V) → string → bool → E → answer () * E;
  (* helpers.setup_logging, datetime.now, time.sleep, random, md5 *)
  setup_logging : Config → string → E → answer () * E;
  now : E → answer Z * E;
  sleep : Z → E → answer () * E;
  entropy : E → answer Z * E;
  md5_hexdigest : string → string;
  (* the interpreter *)
  recursion_room : E → nat
}.

(** What one pass through the body of the [while] loop asks for. *)
Inductive flow : Type := Continue | Break.

(** ** The worker *)

Definition result_of {A S : Type} (x : result A * S * trace) : result A := x.1.1.
Definition trace_of {A S : Type} (x : result A * S * trace) : trace := x.2.

(** What was recorded so far, put in front of the rest of a run. *)
Definition prepend {A S : Type} (t : trace) (o : option (result A * S * trace))
  : option (result A * S * trace) :=
  match o with
  | Some (r, e, t') => Some (r, e, t ++ t')
  | None => None
  end.


Section Worker.
Context {E PL V P : Type} `{!Environment E PL V P}.

(** A computation of the worker: from the state of the environment to a
    result, the new state and the interactions it made, oldest first. *)
Definition M (A : Type) : Type := E → result A * E * trace.

Definition ret {A} (a : A) : M A := λ e, (Ret a, e, []).

Definition bind {A B} (m : M A) (f : A → M B) : M B := λ e,
  match m e with
  | (Ret a, e1, t1) => let '(r, e2, t2) := f a e1 in (r, e2, t1 ++ t2)
  | (Raise x, e1, t1) => (Raise x, e1, t1)
  | (Exit s, e1, t1) => (Exit s, e1, t1)
  | (Killed s, e1, t1) => (Killed s, e1, t1)
  end.

#[global] Instance M_ret : MRet M := @ret.
#[global] Instance M_bind : MBind M := λ A B f m, bind m f.

(** [raise x] *)
Definition raise {A} (x : exn) : M A := λ e, (Raise x, e, []).

(** [sys.exit(status)] *)
Definition sys_exit {A} (status : Z) : M A := λ e, (Exit status, e, []).

(** [try: body finally: fin]. The [finally] suite runs however [body]
    ends, unless the process was killed; when it raises or exits, that
    replaces whatever [body] did. *)
Definition try_finally {A} (body : M A) (fin : M ()) : M A := λ e,
  match body e with
  | (Killed s, e1, t1) => (Killed s, e1, t1)
  | (r, e1, t1) =>
      let '(rf, e2, t2) := fin e1 in
      (match rf with
       | Ret _ => r
       | Raise x => Raise x
       | Exit s => Exit s
       | Killed s => Killed s
       end, e2, t1 ++ t2)
  end.

(** A call of [logging]: the record goes to the trace. *)
Definition logging (l : level) (msg : string) : M () := λ e,
  (Ret (), e, [Log l msg]).

(** A call to a collaborator while [handler] is what SIGTERM triggers.
    When the signal arrives during the call the handler runs in the
    caller's frame; were it to return, the interrupted call fails as
    Python 2 does on EINTR. *)
Definition invoke_with {A} (handler : M ()) (c : call) (show : A → outcome)
    (op : E → answer A * E) : M A := λ e,
  match op e with
  | (Ans a, e1) => (Ret a, e1, [Call c (show a)])
  | (Throw x, e1) => (Raise x, e1, [Call c (Raised x)])
  | (Sigterm, e1) =>
      let '(r, e2, t) := (handler ;; raise OtherError) e1 in
      (r, e2, Call c Interrupted :: t)
  end.

(** The default action of SIGTERM, in force until [run_forever] has called
    [signal.signal]: the process is killed. *)
Definition default_action : M () := λ e, (Killed SIGTERM, e, []).

(** [datetime.datetime.now()] *)
Definition datetime_now (handler : M ()) : M Z :=
  invoke_with handler DatetimeNow ReturnedZ now.

(** Modelled from the spec: [random.randint(a, b)], the spec's
    [uniform_random(1, MAX_TTL)], is a function of the standard library.
    From the draw [x] of the generator it gives [a + x mod (b - a + 1)]:
    an integer [N] with [a <= N <= b], each value of which has one draw in
    every [b - a + 1] consecutive ones. *)
Definition randint (a b x : Z) : Z := a + x `mod` (b - a + 1).

Definition random_randint (handler : M ()) (a b : Z) : M Z :=
  x ← invoke_with handler (RandomRandint a b)
         (λ x, ReturnedZ (randint a b x)) entropy;
  mret (randint a b x).

Definition worker_id (w : WorkerInit) : string := md5_hexdigest (playlist w).

Definition lock_path (w : WorkerInit) : string :=
  cfg_lock_path (config w) +:+ "." +:+ worker_id w.

(** [__init__] with [setup_lock] *)
Definition new_worker (pl : string) (variant : bool) (cfg : Config)
  : WorkerInit :=
  {| playlist := pl; is_variant := variant; config := cfg;
     lock_timeout := cfg_lock_timeout cfg;
     lock_expiration := cfg_lock_expiration cfg |}.

(** [stop], with room for [room] nested runs of the SIGTERM handler. The
    handler stays installed while [stop] runs: a signal that arrives during
    [release_if_locking] runs [interrupted], which logs and calls [stop]
    again, one frame deeper. With no room left the handler is not entered:
    the interpreter raises [RuntimeError] (maximum recursion depth
    exceeded) in the interrupted call, and the [finally] clause exits. *)
Fixpoint stop_at (room : nat) : M () :=
  let handler :=
    match room with
    | S n => logging INFO "Interrupted. Releasing lock." ;; stop_at n
    | O => raise OtherError
    end in
  try_finally
    (invoke_with handler ReleaseIfLocking (λ _, Returned) release_if_locking)
    (sys_exit 0).

Definition stop : M () := λ e, stop_at (recursion_room e) e.

(** The SIGTERM handler registered by [run_forever]. *)
Definition interrupted : M () :=
  logging INFO "Interrupted. Releasing lock." ;; stop.

(** A call to a collaborator once the handler is installed. *)
Definition invoke {A} (c : call) (show : A → outcome)
    (op : E → answer A * E) : M A :=
  invoke_with interrupted c show op.

Definition lock_is_locked : M bool := invoke IsLocked ReturnedBool is_locked.
Definition lock_i_am_locking : M bool :=
  invoke IAmLocking ReturnedBool i_am_locking.
Definition lock_expired (tolerance : Z) : M bool :=
  invoke (Expired tolerance) ReturnedBool (expired tolerance).
Definition lock_break_lock : M () :=
  invoke BreakLock (λ _, Returned) break_lock.
Definition lock_acquire (timeout : Z) : M () :=
  invoke (Acquire timeout) (λ _, Returned) (acquire timeout).
Definition lock_update_lock : M () :=
  invoke UpdateLock (λ _, Returned) update_lock.

(** [time.sleep(d)], [d] in microseconds *)
Definition time_sleep (d : Z) : M () :=
  invoke Sleep (λ _, Returned) (sleep d).

(** *** Lock protocol *)

Definition other_is_running (w : WorkerInit) : M bool :=
  locked ← lock_is_locked;
  (* [is_locked() and not i_am_locking()] *)
  other ← (if locked : bool
           then mine ← lock_i_am_locking; mret (negb mine)
           else mret false);
  (* [other and expired(tolerance=...)] *)
  stale ← (if other : bool
           then lock_expired (lock_expiration w)
           else mret false);
  if stale : bool then
    logging WARNING "Lock expired. Breaking it" ;;
    lock_break_lock ;;
    mret false
  else mret other.

Definition can_run (w : WorkerInit) : M bool :=
  other ← other_is_running w;
  (if other : bool then
     logging WARNING "Someone else acquired the lock" ;;
     stop
   else
     locked ← lock_is_locked;
     if negb locked then lock_acquire (lock_timeout w) else mret ()) ;;
  lock_i_am_locking.

(** *** Selection of the streams *)

(** The list [streams] built by [filter_playlists_for_worker]. *)
Definition selected_streams (w : WorkerInit) (playlists : PL) : list string :=
  if is_variant w then
    let combine_actions := get_actions playlists "combine" in
    let my_combine_actions :=
      filter (λ action, output action = playlist w) combine_actions in
    let my_inputs := input <$> my_combine_actions in
    let streams := mjoin my_inputs in
    filter (λ s, s ∈ dom (streams_of playlists)) streams
  else [playlist w].

(** [{stream: catalog[stream] for stream in streams}], filled from left
    to right; a missing key raises [KeyError]. *)
Fixpoint dict_comprehension (catalog : gmap string V) (streams : list string)
    (acc : gmap string V) : result (gmap string V) :=
  match streams with
  | [] => Ret acc
  | stream :: rest =>
      match catalog !! stream with
      | Some v => dict_comprehension catalog rest (<[stream := v]> acc)
      | None => Raise KeyError
      end
  end.

Definition filter_playlists_for_worker (w : WorkerInit) (playlists : PL)
  : result (gmap string (gmap string V)) :=
  match
    dict_comprehension (streams_of playlists) (selected_streams w playlists) ∅
  with
  | Ret d => Ret {[ "streams" := d ]}
  | Raise x => Raise x
  | Exit s => Exit s
  | Killed s => Killed s
  end.

(** Truth value of a dict: it is true unless it has no key. *)
Definition truthy {A} (d : gmap string A) : bool := negb (Nat.eqb (size d) 0).

Definition lift {A} (r : result A) : M A := λ e, (r, e, []).

(** *** The task *)

Definition run (w : PlaylistWorker) : M () :=
  playlists ← invoke DiscoverPlaylists (λ _, Returned)
                (discover_playlists (config (init w)));
  worker_playlists ← lift (filter_playlists_for_worker (init w) playlists);
  (if negb (truthy worker_playlists) then
     logging WARNING "Playlist is not available anymore" ;;
     stop
   else mret ()) ;;
  paths ← invoke GetServers (λ _, Returned) (get_servers worker_playlists);
  invoke BalancerUpdate (λ _, Returned) (balancer_update paths) ;;
  invoke ConsumeFromBalancer (λ _, Returned)
    (consume_from_balancer worker_playlists (destination w) (encrypt w)).

Definition run_if_locking (w : PlaylistWorker) : M () :=
  granted ← can_run (init w);
  if granted : bool then lock_update_lock ;; run w else mret ().

(** *** Life cycle *)

(** [setup] runs before [run_forever] installs the handler: its calls are
    made under the default action of SIGTERM. *)
Definition setup (w : WorkerInit) : M PlaylistWorker :=
  let cfg := config w in
  invoke_with default_action SetupLogging (λ _, Returned)
    (setup_logging cfg ("worker for " +:+ playlist w)) ;;
  logging DEBUG ("HLS CLIENT Started for " +:+ playlist w) ;;
  invoke_with default_action NewBalancer (λ _, Returned)
    (balancer_new (cfg_not_modified_tolerance cfg)) ;;
  seconds ← random_randint default_action 1 MAX_TTL_IN_SECONDS;
  let ttl := timedelta_seconds seconds in
  t ← datetime_now default_action;
  mret {| init := w;
          destination := cfg_destination cfg;
          encrypt := cfg_encrypt cfg;
          death_time := t + ttl |}.

Definition should_run (w : PlaylistWorker) : M bool :=
  t ← datetime_now interrupted;
  let should_live := bool_decide (t < death_time w) in
  (if negb should_live then
     logging INFO ("Worker " +:+ worker_id (init w) +:+ " should die now!")
   else mret ()) ;;
  mret should_live.

(** [try: body except ...]: [handler x] is the suite of the first
    [except] clause that matches [x], if any. *)
Definition try_except {A} (body : M A) (handler : exn → option (M A))
  : M A := λ e,
  match body e with
  | (Raise x, e1, t1) =>
      match handler x with
      | Some h => let '(r, e2, t2) := h e1 in (r, e2, t1 ++ t2)
      | None => (Raise x, e1, t1)
      end
  | other => other
  end.

(** The three [except] clauses of [run_forever], in the order of the
    source. *)
Definition except_clauses (x : exn) : option (M flow) :=
  match x with
  | LockTimeout => Some (logging DEBUG "Unable to acquire lock" ;; mret Continue)
  | _ =>
    if is_Exception x then
      Some (logging ERROR "An unknown error happened" ;; mret Continue)
    else
      match x with
      | KeyboardInterrupt => Some (logging DEBUG "Quitting..." ;; mret Break)
      | _ => None
      end
  end.

(** The body of the [while] loop: the [try] statement, then
    [time.sleep(0.1)] unless the loop was left by [break]. *)
Definition loop_body (w : PlaylistWorker) : M flow :=
  fl ← try_except (run_if_locking w ;; mret Continue) except_clauses;
  match fl with
  | Continue => time_sleep 100000 ;; mret Continue
  | Break => mret Break
  end.

(** [while self.should_run(): ...], at most [fuel] iterations; [None]
    when the loop is still running after them. *)
Fixpoint polling (fuel : nat) (w : PlaylistWorker) (e : E)
  : option (result () * E * trace) :=
  match fuel with
  | O => None
  | S n =>
      match should_run w e with
      | (Ret true, e1, t1) =>
          match loop_body w e1 with
          | (Ret Continue, e2, t2) => prepend (t1 ++ t2) (polling n w e2)
          | (Ret Break, e2, t2) => Some (Ret (), e2, t1 ++ t2)
          | (Raise x, e2, t2) => Some (Raise x, e2, t1 ++ t2)
          | (Exit s, e2, t2) => Some (Exit s, e2, t1 ++ t2)
          | (Killed s, e2, t2) => Some (Killed s, e2, t1 ++ t2)
          end
      | (Ret false, e1, t1) => Some (Ret (), e1, t1)
      | (Raise x, e1, t1) => Some (Raise x, e1, t1)
      | (Exit s, e1, t1) => Some (Exit s, e1, t1)
      | (Killed s, e1, t1) => Some (Killed s, e1, t1)
      end
  end.

(** [setup], then [signal.signal(signal.SIGTERM, self.interrupted)], the
    loop, and [stop]. *)
Definition run_forever (fuel : nat) (w : WorkerInit) (e : E)
  : option (result () * E * trace) :=
  match setup w e with
  | (Ret pw, e1, t1) =>
      match polling fuel pw e1 with
      | Some (Ret _, e2, t2) => prepend (t1 ++ t2) (Some (stop e2))
      | Some (Raise x, e2, t2) => Some (Raise x, e2, t1 ++ t2)
      | Some (Exit s, e2, t2) => Some (Exit s, e2, t1 ++ t2)
      | Some (Killed s, e2, t2) => Some (Killed s, e2, t1 ++ t2)
      | None => None
      end
  | (Raise x, e1, t1) => Some (Raise x, e1, t1)
  | (Exit s, e1, t1) => Some (Exit s, e1, t1)
  | (Killed s, e1, t1) => Some (Killed s, e1, t1)
  end.
End Worker.

(** ** What [setup] produces *)

(** The worker [setup] builds from the draw [x] and the time [t0]. *)
Definition set_up_worker (w : WorkerInit) (x t0 : Z) : PlaylistWorker :=
  {| init := w;
     destination := cfg_destination (config w);
     encrypt := cfg_encrypt (config w);
     death_time :=
       t0 + timedelta_seconds (randint 1 MAX_TTL_IN_SECONDS x) |}.

(** What [setup] leaves in the trace when its four calls return. *)
Definition setup_trace (w : WorkerInit) (x t0 : Z) : trace :=
  [ Call SetupLogging Returned;
    Log DEBUG ("HLS CLIENT Started for " +:+ playlist w);
    Call NewBalancer Returned;
    Call (RandomRandint 1 MAX_TTL_IN_SECONDS)
      (ReturnedZ (randint 1 MAX_TTL_IN_SECONDS x));
    Call DatetimeNow (ReturnedZ t0) ].

(** A call of [setup]. *)
Definition is_setup_call (c : call) : Prop :=
  c ∈ [ SetupLogging; NewBalancer; RandomRandint 1 MAX_TTL_IN_SECONDS;
        DatetimeNow ].

(** ** Properties of traces *)

Definition is_release (ev : event) : bool :=
  match ev with Call ReleaseIfLocking _ => true | _ => false end.

Definition is_break (ev : event) : bool :=
  match ev with Call BreakLock _ => true | _ => false end.

Definition is_acquire (ev : event) : bool :=
  match ev with Call (Acquire _) _ => true | _ => false end.

Definition is_renewal (ev : event) : bool :=
  match ev with Call UpdateLock _ => true | _ => false end.

(** The calls made by the task body, [run]. *)
Definition is_task (ev : event) : bool :=
  match ev with
  | Call DiscoverPlaylists _ | Call GetServers _
  | Call BalancerUpdate _ | Call ConsumeFromBalancer _ => true
  | _ => false
  end.


Definition is_unavailable (ev : event) : bool :=
  match ev with
  | Log WARNING msg => bool_decide (msg = "Playlist is not available anymore")
  | _ => false
  end.

Fixpoint count (p : event → bool) (t : trace) : nat :=
  match t with
  | [] => O
  | ev :: rest => ((if p ev then 1 else 0) + count p rest)%nat
  end.

(** No event of the trace satisfies [p]. *)
Definition absent (p : event → bool) (t : trace) : Prop :=
  Forall (λ ev, p ev = false) t.

(** Every event of the trace that satisfies [p] comes right after the
    events [g], in that order. *)
Definition preceded_by (g : trace) (p : event → bool) (t : trace) : Prop :=
  ∀ pre ev post, t = pre ++ ev :: post → p ev = true →
    ∃ pre', pre = pre' ++ g.

(** Every event of the trace that satisfies [p] has the event [q] somewhere
    before it. *)
Definition after (q : event) (p : event → bool) (t : trace) : Prop :=
  ∀ pre ev post, t = pre ++ ev :: post → p ev = true → q ∈ pre.

(** What [other_is_running] has seen when it breaks the lock: the lock is
    held, not by this worker, and the claim is older than the tolerance. *)
Definition stale_other (tolerance : Z) : trace :=
  [ Call IsLocked (ReturnedBool true);
    Call IAmLocking (ReturnedBool false);
    Call (Expired tolerance) (ReturnedBool true);
    Log WARNING "Lock expired. Breaking it" ].

(** What [stop] leaves in the trace: a call of [release_if_locking]; when
    SIGTERM arrived during it and the handler ran, the handler's log line
    and what the nested [stop] left. *)
Inductive stopping : trace → Prop :=
  | stopping_once o : stopping [Call ReleaseIfLocking o]
  | stopping_again ts :
      stopping ts →
      stopping (Call ReleaseIfLocking Interrupted ::
                Log INFO "Interrupted. Releasing lock." :: ts).

(** A result and a trace that respect the shutdown discipline of the code
    that runs once the handler is installed: the lock is released only by
    [stop], with nothing after it, the process then exits with status 0,
    and no signal kills it. *)
Definition clean {A} (r : result A) (t : trace) : Prop :=
  match r with
  | Exit s =>
      s = 0 ∧ ∃ t0 ts, t = t0 ++ ts ∧ absent is_release t0 ∧ stopping ts
  | Killed _ => False
  | _ => absent is_release t
  end.

(** How the loop ends: it releases the lock only on its way out through
    [stop]; no signal kills it; and when an exception ends it, that
    exception was raised by the clock or by the sleep, and nothing was
    released. *)
Definition loop_ends_well (r : result ()) (t : trace) : Prop :=
  clean r t ∧
  ∀ x, r = Raise x →
    ∃ t0 c, t = t0 ++ [Call c (Raised x)] ∧ (c = DatetimeNow ∨ c = Sleep).

(** [Q] holds of the result and the trace of [m], whatever the
    environment. *)
Definition post {E A} (m : M (E:=E) A) (Q : result A → trace → Prop) : Prop :=
  ∀ e, Q (result_of (m e)) (trace_of (m e)).

(** [P] holds of the trace of [m], whatever the environment. *)
Definition emits {E A} (P : trace → Prop) (m : M (E:=E) A) : Prop :=
  ∀ e, P (trace_of (m e)).

(** A property of traces that the empty trace has and that concatenation
    preserves. *)
Record closed (P : trace → Prop) : Prop := {
  closed_nil : P [];
  closed_app : ∀ t1 t2, P t1 → P t2 → P (t1 ++ t2)
}.

(** A property of traces that is closed and holds of what the SIGTERM
    handler leaves behind. *)
Definition handles (Q : trace → Prop) : Prop :=
  closed Q ∧ Q [Log INFO "Interrupted. Releasing lock."] ∧
  ∀ o, Q [Call ReleaseIfLocking o].

(** What the loop writes to the log when it catches the exception [x]. *)
Definition caught_log (x : exn) : event :=
  match x with
  | LockTimeout => Log DEBUG "Unable to acquire lock"
  | _ => Log ERROR "An unknown error happened"
  end.

(** The claim that every run that ends has called [release_if_locking]
    exactly once. *)
Definition releases_exactly_once {E PL V P : Type} `{!Environment E PL V P}
    (fuel : nat) (w : WorkerInit) (e : E) : Prop :=
  ∀ r e' t, run_forever fuel w e = Some (r, e', t) →
    count is_release t = 1%nat.

(** The claim that no exception raised during a tick of the loop ends the
    loop. *)
Definition loop_never_raises {E PL V P : Type} `{!Environment E PL V P}
    (fuel : nat) (pw : PlaylistWorker) (e : E) : Prop :=
  ∀ r e' t, polling fuel pw e = Some (r, e', t) → ∀ x, r ≠ Raise x.

(** The claim that every run that ends, ends with exit status 0. *)
Definition always_exits_zero {E PL V P : Type} `{!Environment E PL V P}
    (fuel : nat) (w : WorkerInit) (e : E) : Prop :=
  ∀ r e' t, run_forever fuel w e = Some (r, e', t) → r = Exit 0.

(** The reading of the protocol in which a tick that breaks a stale lock
    leaves the acquisition to a later tick: when the lock is seen held, by
    another, and expired, the tick breaks it and does not call [acquire]. *)
Definition waits_for_next_tick {E PL V P : Type} `{!Environment E PL V P}
    (pw : PlaylistWorker) (e : E) : Prop :=
  (∃ e1 e2 e3,
     is_locked e = (Ans true, e1) ∧
     i_am_locking e1 = (Ans false, e2) ∧
     expired (lock_expiration (init pw)) e2 = (Ans true, e3)) →
  (∃ o, Call BreakLock o ∈ trace_of (run_if_locking pw e)) ∧
  absent is_acquire (trace_of (run_if_locking pw e)).

(** Environments whose clock never goes back: what [now] returns is not
    behind it, a sleep of [d] microseconds that returns has moved it forward
    by [d] at least, and no call of a collaborator sets it back. *)
Class Timed (E PL V P : Type) `{!Environment E PL V P} : Type := {
  clock : E → Z;
  now_clock : ∀ e,
    clock e ≤ clock (now e).2 ∧ ∀ t, (now e).1 = Ans t → clock e ≤ t;
  sleep_clock : ∀ d e, 0 ≤ d →
    clock e ≤ clock (sleep d e).2 ∧
    ((sleep d e).1 = Ans () → clock e + d ≤ clock (sleep d e).2);
  is_locked_clock : ∀ e, clock e ≤ clock (is_locked e).2;
  i_am_locking_clock : ∀ e, clock e ≤ clock (i_am_locking e).2;
  expired_clock : ∀ tol e, clock e ≤ clock (expired tol e).2;
  break_lock_clock : ∀ e, clock e ≤ clock (break_lock e).2;
  acquire_clock : ∀ timeout e, 0 ≤ timeout → clock e ≤ clock (acquire timeout e).2;
  update_lock_clock : ∀ e, clock e ≤ clock (update_lock e).2;
  release_clock : ∀ e, clock e ≤ clock (release_if_locking e).2;
  discover_clock : ∀ cfg e, clock e ≤ clock (discover_playlists cfg e).2;
  get_servers_clock : ∀ wp e, clock e ≤ clock (get_servers wp e).2;
  balancer_update_clock : ∀ paths e, clock e ≤ clock (balancer_update paths e).2;
  consume_clock : ∀ wp dest enc e,
    clock e ≤ clock (consume_from_balancer wp dest enc e).2
}.

(** The computation [m] never sets the clock back. *)
Definition mono {E PL V P : Type} `{!Environment E PL V P}
    `{!Timed E PL V P} {A} (m : M (E:=E) A) : Prop :=
  ∀ e, clock e ≤ clock (m e).1.2.

(** *** Further properties of traces *)

Definition is_sleep (ev : event) : bool :=
  match ev with Call Sleep _ => true | _ => false end.

Definition is_expired (ev : event) : bool :=
  match ev with Call (Expired _) _ => true | _ => false end.

Definition is_get_servers (ev : event) : bool :=
  match ev with Call GetServers _ => true | _ => false end.

Definition is_balancer_update (ev : event) : bool :=
  match ev with Call BalancerUpdate _ => true | _ => false end.

Definition is_consume (ev : event) : bool :=
  match ev with Call ConsumeFromBalancer _ => true | _ => false end.

(** A call during which SIGTERM arrived. *)
Definition is_interruption (ev : event) : bool :=
  match ev with Call _ Interrupted => true | _ => false end.

(** Every [acquire] of the trace was given the timeout [timeout], and
    every [expired] the tolerance [tolerance]. *)
Definition configured (timeout tolerance : Z) (t : trace) : Prop :=
  Forall (λ ev,
    (∀ tm o, ev = Call (Acquire tm) o → tm = timeout) ∧
    (∀ tol o, ev = Call (Expired tol) o → tol = tolerance)) t.

(** The log line of the SIGTERM handler. *)
Definition is_handler_log (ev : event) : bool :=
  match ev with
  | Log INFO msg => bool_decide (msg = "Interrupted. Releasing lock.")
  | _ => false
  end.

(** The events of a shutdown by signal: the log line of the handler and
    the calls of [release_if_locking]. *)
Definition is_shutdown (ev : event) : bool :=
  is_release ev || is_handler_log ev.

(** Once SIGTERM has interrupted a call, the handler's log line and [stop]
    follow, nothing else, and the result is exit status 0. When the
    interrupted call is itself the release of a [stop] in progress, what
    follows is still made of the handler's log lines and releases only. *)
Definition prompt {A} (r : result A) (t : trace) : Prop :=
  ∀ pre c post, t = pre ++ Call c Interrupted :: post →
    r = Exit 0 ∧
    absent (λ ev, negb (is_shutdown ev)) post ∧
    (c ≠ ReleaseIfLocking →
     ∃ ts, post = Log INFO "Interrupted. Releasing lock." :: ts ∧
           stopping ts).

(** The calls that [run_forever] makes outside its [try] statement and
    outside [stop]: those of [setup], the clock read by [should_run] and
    the sleep at the end of the loop body. *)
Definition outside_try (c : call) : bool :=
  match c with
  | SetupLogging | NewBalancer | RandomRandint _ _ | DatetimeNow | Sleep => true
  | _ => false
  end.

(** How a run of [run_forever] may end. It exits with status 0 through
    [stop], which is the only place where the lock is released; or an
    exception raised by a call outside the [try] statement escapes, and
    nothing is released; or SIGTERM arrived during [setup] and killed the
    process, and nothing is released. *)
Definition ends_well (r : result ()) (t : trace) : Prop :=
  match r with
  | Ret _ => False
  | Exit s =>
      s = 0 ∧ ∃ t0 ts, t = t0 ++ ts ∧ absent is_release t0 ∧ stopping ts
  | Raise x =>
      absent is_release t ∧
      ∃ t0 c, t = t0 ++ [Call c (Raised x)] ∧ outside_try c = true
  | Killed s =>
      s = SIGTERM ∧ absent is_release t ∧
      ∃ t0 c, t = t0 ++ [Call c Interrupted] ∧ is_setup_call c ∧
              absent is_interruption t0
  end.

Definition is_failed_acquire (ev : event) : bool :=
  match ev with Call (Acquire _) (Raised _) => true | _ => false end.

(** An [acquire] that raised is the last interaction, and its exception is
    the result. *)
Definition gives_up {A} (r : result A) (t : trace) : Prop :=
  ∀ pre tm x post, t = pre ++ Call (Acquire tm) (Raised x) :: post →
    post = [] ∧ r = Raise x.

(** ** A reference environment

    One process among others on a single lock resource, with a scripted
    schedule of what the rest of the world does at each call. It serves to
    run the worker on concrete inputs. *)
Module Sim.

(** What happens around one call of the worker: nothing, another process
    creates the lock resource (if it is free), the other holder removes its
    resource, the call fails with an exception, or SIGTERM arrives. *)
Inductive meddle : Type :=
  | Quiet
  | Grab (pid : Z)
  | Vacate
  | Fail (x : exn)
  | Signal.

Record Catalog : Type := {
  cat_streams : gmap string (list string);
  cat_combine : list Action
}.

Record World : Type := {
  me : Z;
  holder : option (Z * Z);
  clock : Z;
  catalog : Catalog;
  seed : Z;
  script : list meddle
}.

Definition with_holder (h : option (Z * Z)) (w : World) : World :=
  {| me := me w; holder := h; clock := clock w; catalog := catalog w;
     seed := seed w; script := script w |}.

Definition with_clock (t : Z) (w : World) : World :=
  {| me := me w; holder := holder w; clock := t; catalog := catalog w;
     seed := seed w; script := script w |}.

Definition with_script (s : list meddle) (w : World) : World :=
  {| me := me w; holder := holder w; clock := clock w; catalog := catalog w;
     seed := seed w; script := s |}.

(** The next entry of the schedule, applied to the lock resource. *)
Definition step (w : World) : meddle * World :=
  match script w with
  | [] => (Quiet, w)
  | m :: rest =>
      let w1 := with_script rest w in
      match m, holder w1 with
      | Grab pid, None => (m, with_holder (Some (pid, clock w1)) w1)
      | Vacate, Some (pid, _) =>
          (m, if Z.eqb pid (me w1) then w1 else with_holder None w1)
      | _, _ => (m, w1)
      end
  end.

Definition scheduled {A} (k : World → answer A * World) (w : World)
  : answer A * World :=
  let '(m, w1) := step w in
  match m with
  | Fail x => (Throw x, w1)
  | Signal => (Sigterm, w1)
  | _ => k w1
  end.

(** Modelled from the spec: the lock object [ExpiringLinkLockFile] of
    [hlsclient.lock], which the module imports and whose code is not part
    of it. The resource records the holder and the time of its last
    renewal. [is_locked]: the resource exists. *)
Definition sim_is_locked (w : World) : bool := bool_decide (holder w ≠ None).

(** Modelled from the spec: [i_am_locking] is true when the recorded holder
    is this process. *)
Definition sim_i_am_locking (w : World) : bool :=
  match holder w with
  | Some (pid, _) => Z.eqb pid (me w)
  | None => false
  end.

(** Modelled from the spec: [expired(tolerance)] is true when
    [now - last_renewed_at > tolerance] (tolerance in seconds). *)
Definition sim_expired (tolerance : Z) (w : World) : bool :=
  match holder w with
  | Some (_, renewed) =>
      bool_decide (timedelta_seconds tolerance < clock w - renewed)
  | None => false
  end.

(** Modelled from the spec: [break_lock] removes the resource whoever
    holds it. *)
Definition sim_break_lock (w : World) : World := with_holder None w.

(** Modelled from the spec: [acquire(timeout)] creates the resource with
    this process as holder and the current time; when the resource exists
    and is not freed, it gives up after [timeout] seconds with
    [LockTimeout]. *)
Definition sim_acquire (timeout : Z) (w : World) : answer () * World :=
  match holder w with
  | None => (Ans (), with_holder (Some (me w, clock w)) w)
  | Some _ =>
      (Throw LockTimeout, with_clock (clock w + timedelta_seconds timeout) w)
  end.

(** Modelled from the spec: [update_lock] sets the time of last renewal to
    now; it is meant for the holder only. *)
Definition sim_update_lock (w : World) : World :=
  if sim_i_am_locking w then with_holder (Some (me w, clock w)) w else w.

(** Modelled from the spec: [release_if_locking] removes the resource if
    and only if this process holds it. *)
Definition sim_release_if_locking (w : World) : World :=
  if sim_i_am_locking w then with_holder None w else w.

Definition sim_get_actions (c : Catalog) (kind : string) : list Action :=
  if bool_decide (kind = "combine") then cat_combine c else [].

Definition sim_get_servers (wp : gmap string (gmap string (list string)))
  : list string :=
  match wp !! "streams" with
  | Some d => concat (snd <$> map_to_list d)
  | None => []
  end.

(** The MD5 hex digests of the playlist names used below, as [md5.md5]
    computes them; the last one is the digest of the empty string and
    stands for the names that are not used. *)
Definition sim_md5 (s : string) : string :=
  if bool_decide (s = "A") then "7fc56270e7a70fa81a5935b72eacbe29"
  else if bool_decide (s = "X") then "02129bb861061d1a052c592e2dc6b383"
  else if bool_decide (s = "Y") then "57cec4137b614c87cb4e24a3d003a3e0"
  else if bool_decide (s = "Z") then "21c2e59531c8710156d34a3c30ac81d5"
  else "d41d8cd98f00b204e9800998ecf8427e".

#[global] Instance sim_environment
  : Environment World Catalog (list string) (list string) := {|
  is_locked := scheduled (λ w, (Ans (sim_is_locked w), w));
  i_am_locking := scheduled (λ w, (Ans (sim_i_am_locking w), w));
  expired tol := scheduled (λ w, (Ans (sim_expired tol w), w));
  break_lock := scheduled (λ w, (Ans (), sim_break_lock w));
  acquire timeout := scheduled (sim_acquire timeout);
  update_lock := scheduled (λ w, (Ans (), sim_update_lock w));
  release_if_locking := scheduled (λ w, (Ans (), sim_release_if_locking w));
  discover_playlists _ := scheduled (λ w, (Ans (catalog w), w));
  streams_of := cat_streams;
  get_actions := sim_get_actions;
  get_servers wp := scheduled (λ w, (Ans (sim_get_servers wp), w));
  balancer_new _ := scheduled (λ w, (Ans (), w));
  balancer_update _ := scheduled (λ w, (Ans (), w));
  consume_from_balancer _ _ _ := scheduled (λ w, (Ans (), w));
  setup_logging _ _ := scheduled (λ w, (Ans (), w));
  now := scheduled (λ w, (Ans (clock w), w));
  sleep d := scheduled (λ w, (Ans (), with_clock (clock w + d) w));
  entropy := scheduled (λ w, (Ans (seed w), w));
  md5_hexdigest := sim_md5;
  recursion_room _ := 300%nat
|}.

Definition cfg : Config := {|
  cfg_destination := "/tmp/hls";
  cfg_encrypt := false;
  cfg_not_modified_tolerance := 8;
  cfg_lock_path := "/tmp/hls.lock";
  cfg_lock_timeout := 2;
  cfg_lock_expiration := 30
|}.

(** The catalog [{A, B, C}] with the rule [{output: X, inputs: [A, D]}]. *)
Definition abc : Catalog := {|
  cat_streams := {[ "A" := ["s1"]; "B" := ["s2"]; "C" := ["s3"] ]};
  cat_combine := [ {| output := "X"; input := ["A"; "D"] |} ]
|}.

Definition world (h : option (Z * Z)) (t : Z) (s : list meddle) : World :=
  {| me := 1; holder := h; clock := t; catalog := abc; seed := 4;
     script := s |}.

Definition worker_A : WorkerInit := new_worker "A" false cfg.
Definition worker_X : WorkerInit := new_worker "X" true cfg.
Definition worker_Z : WorkerInit := new_worker "Z" false cfg.

Definition set_up (w : WorkerInit) (death : Z) : PlaylistWorker :=
  {| init := w; destination := cfg_destination cfg;
     encrypt := cfg_encrypt cfg; death_time := death |}.

(** A variant worker whose playlist no combine action produces. *)
Definition worker_Y : WorkerInit := new_worker "Y" true cfg.

(** The catalog [abc] with its rule listed twice and a rule for another
    output in between. *)
Definition abc_again : Catalog := {|
  cat_streams := cat_streams abc;
  cat_combine :=
    [ {| output := "X"; input := ["A"; "D"] |};
      {| output := "W"; input := ["B"] |};
      {| output := "X"; input := ["A"; "D"] |} ]
|}.

Definition pw_A : PlaylistWorker := set_up worker_A 5000000.
Definition pw_X : PlaylistWorker := set_up worker_X 5000000.
Definition pw_Z : PlaylistWorker := set_up worker_Z 5000000.

(** The lock is free. *)
Definition free : World := world None 0 [].

(** Process 2 holds the lock and renewed it 3 seconds ago. *)
Definition live : World := world (Some (2, 0)) 3000000 [].

(** Process 2 holds the lock and renewed it 31 seconds ago; the tolerance
    is 30 seconds. *)
Definition stale : World := world (Some (2, 0)) 31000001 [].

End Sim.

(** ** Traces: counting, absence, precedence *)

Lemma count_app (p : event → bool) (t1 t2 : trace) :
  count p (t1 ++ t2) = (count p t1 + count p t2)%nat.
Proof. induction t1 as [|ev t1 IH]; simpl; [done | rewrite IH; lia]. Qed.

Lemma absent_count (p : event → bool) (t : trace) :
  absent p t → count p t = 0%nat.
Proof. induction 1 as [|ev t Hev _ IH]; simpl; [done | by rewrite Hev, IH]. Qed.

Lemma absent_app (p : event → bool) (t1 t2 : trace) :
  absent p t1 → absent p t2 → absent p (t1 ++ t2).
Proof. intros H1 H2. by apply Forall_app. Qed.

Lemma absent_elem (p : event → bool) (t : trace) (ev : event) :
  absent p t → ev ∈ t → p ev = false.
Proof. intros Ht. by apply (proj1 (Forall_forall _ _) Ht). Qed.

Lemma absent_closed (p : event → bool) : closed (absent p).
Proof. split; [by constructor | apply absent_app]. Qed.

(** Where an event of [t1 ++ t2] lies. *)
Lemma app_split_event (t1 t2 pre post : trace) (ev : event) :
  t1 ++ t2 = pre ++ ev :: post →
  (∃ post1, t1 = pre ++ ev :: post1 ∧ post = post1 ++ t2) ∨
  (∃ pre2, pre = t1 ++ pre2 ∧ t2 = pre2 ++ ev :: post).
Proof.
  revert pre. induction t1 as [|a t1 IH]; intros pre Heq; simpl in *.
  - right. by exists pre.
  - destruct pre as [|b pre]; simpl in *.
    + injection Heq as -> <-. left. by exists t1.
    + injection Heq as -> Heq. destruct (IH _ Heq) as [(post1 & -> & ->)|(pre2 & -> & ->)].
      * left. by exists post1.
      * right. by exists pre2.
Qed.

Lemma absent_preceded (g : trace) (p : event → bool) (t : trace) :
  absent p t → preceded_by g p t.
Proof.
  intros Ht pre ev post -> Hp.
  rewrite (absent_elem p _ ev Ht) in Hp; [done | apply elem_of_app; right; apply elem_of_cons; by left].
Qed.

Lemma preceded_app (g : trace) (p : event → bool) (t1 t2 : trace) :
  preceded_by g p t1 → preceded_by g p t2 → preceded_by g p (t1 ++ t2).
Proof.
  intros H1 H2 pre ev post Heq Hp.
  destruct (app_split_event _ _ _ _ _ Heq) as [(post1 & -> & ->)|(pre2 & -> & ->)].
  - by eapply H1.
  - destruct (H2 pre2 ev post eq_refl Hp) as [pre' ->].
    exists (t1 ++ pre'). by rewrite (assoc_L (++)).
Qed.

Lemma preceded_closed (g : trace) (p : event → bool) : closed (preceded_by g p).
Proof.
  split; [|apply preceded_app].
  intros pre ev post Heq. by destruct pre.
Qed.

(** The guarded event right after its guard. *)
Lemma preceded_guard (g : trace) (p : event → bool) (ev : event) :
  absent p g → preceded_by g p (g ++ [ev]).
Proof.
  intros Hg pre ev' post Heq Hp.
  destruct (app_split_event _ _ _ _ _ Heq) as [(post1 & -> & _)|(pre2 & -> & Heq2)].
  - rewrite (absent_elem p _ ev' Hg) in Hp; [done | apply elem_of_app; right; apply elem_of_cons; by left].
  - destruct pre2 as [|? [|? ?]]; simplify_eq/=. exists []. by rewrite app_nil_r.
Qed.

Lemma absent_after (q : event) (p : event → bool) (t : trace) :
  absent p t → after q p t.
Proof.
  intros Ht pre ev post -> Hp.
  rewrite (absent_elem p _ ev Ht) in Hp; [done | apply elem_of_app; right; apply elem_of_cons; by left].
Qed.

Lemma after_app_l (q : event) (p : event → bool) (t1 t2 : trace) :
  q ∈ t1 → after q p t1 → after q p (t1 ++ t2).
Proof.
  intros Hq H1 pre ev post Heq Hp.
  destruct (app_split_event _ _ _ _ _ Heq) as [(post1 & -> & ->)|(pre2 & -> & ->)].
  - by eapply H1.
  - apply elem_of_app. by left.
Qed.

Lemma after_prefix (q : event) (p : event → bool) (t1 t2 : trace) :
  absent p t1 → q ∈ t1 → after q p (t1 ++ t2).
Proof.
  intros Ht Hq pre ev post Heq Hp.
  destruct (app_split_event _ _ _ _ _ Heq) as [(post1 & -> & ->)|(pre2 & -> & ->)].
  - rewrite (absent_elem p _ ev Ht) in Hp; [done|].
    apply elem_of_app; right; apply elem_of_cons; by left.
  - apply elem_of_app. by left.
Qed.

(** ** What [stop] leaves in the trace *)

Lemma stopping_absent (p : event → bool) (ts : trace) :
  (∀ o, p (Call ReleaseIfLocking o) = false) →
  p (Log INFO "Interrupted. Releasing lock.") = false →
  stopping ts → absent p ts.
Proof.
  intros Hrel Hlog. induction 1 as [o|ts _ IH]; repeat constructor; auto.
Qed.

Lemma stopping_shutdown (ts : trace) :
  stopping ts → absent (λ ev, negb (is_shutdown ev)) ts.
Proof. by apply stopping_absent. Qed.

(** [stop] calls [release_if_locking] first. *)
Lemma stopping_first (ts : trace) :
  stopping ts → ∃ o rest, ts = Call ReleaseIfLocking o :: rest.
Proof. destruct 1; eauto. Qed.

Lemma stopping_last (ts : trace) :
  stopping ts → ∃ o, last ts = Some (Call ReleaseIfLocking o).
Proof. induction 1 as [o|ts _ [o IH]]; [by exists o|]. exists o. by destruct ts. Qed.

Lemma stopping_released (ts : trace) :
  stopping ts → (1 ≤ count is_release ts)%nat.
Proof. destruct 1; cbn; lia. Qed.

(** One call more for each signal that made the handler run again. *)
Lemma stopping_count (ts : trace) :
  stopping ts →
  count is_release ts = S (count is_handler_log ts).
Proof. induction 1 as [o|ts _ IH]; cbn; [done | by rewrite IH]. Qed.

(** Without a signal during the release, [stop] releases once. *)
Lemma stopping_quiet (ts : trace) :
  stopping ts → absent is_interruption ts →
  ∃ o, ts = [Call ReleaseIfLocking o] ∧ o ≠ Interrupted.
Proof.
  destruct 1 as [o|ts _]; intros Hq.
  - exists o. split; [done|]. intros ->. by apply Forall_cons in Hq as [? _].
  - by apply Forall_cons in Hq as [? _].
Qed.

(** ** Reasoning about worker computations *)

Section Laws.
Context {E PL V P : Type} `{!Environment E PL V P}.
Implicit Types (e : E) (t : trace) (Q : trace → Prop).
Local Abbreviation M := (M (E:=E)).
Local Abbreviation emits := (emits (E:=E)).
Local Abbreviation post := (post (E:=E)).

Lemma emits_ret {A} Q (a : A) : closed Q → emits Q (mret a : M A).
Proof. intros HQ e. apply HQ. Qed.

Lemma emits_bind {A B} Q (m : M A) (f : A → M B) :
  closed Q → emits Q m → (∀ a, emits Q (f a)) → emits Q (m ≫= f).
Proof.
  intros HQ Hm Hf e. specialize (Hm e).
  unfold mbind, M_bind, bind, trace_of in *.
  destruct (m e) as [[[a|x|s|k] e1] t1]; simpl in *; try done.
  specialize (Hf a e1). destruct (f a e1) as [[r e2] t2]. simpl in *.
  by apply HQ.
Qed.

Lemma emits_logging Q l msg : Q [Log l msg] → emits Q (logging l msg).
Proof. by intros HQ e. Qed.

Lemma emits_lift {A} Q (r : result A) : closed Q → emits Q (lift r).
Proof. intros HQ e. apply HQ. Qed.

Lemma emits_default_action Q : closed Q → emits Q default_action.
Proof. intros HQ e. apply HQ. Qed.

(** A call under any handler: the event of the call, then what the handler
    leaves when SIGTERM arrives. *)
Lemma invoke_with_cases {A} (handler : M ()) c (show : A → outcome) op e :
  (∃ a e1, op e = (Ans a, e1) ∧
     invoke_with handler c show op e = (Ret a, e1, [Call c (show a)])) ∨
  (∃ x e1, op e = (Throw x, e1) ∧
     invoke_with handler c show op e = (Raise x, e1, [Call c (Raised x)])) ∨
  (∃ e1, op e = (Sigterm, e1) ∧
     invoke_with handler c show op e =
       (match result_of (handler e1) with
        | Ret _ => Raise OtherError
        | Raise x => Raise x
        | Exit s => Exit s
        | Killed s => Killed s
        end, (handler e1).1.2, Call c Interrupted :: trace_of (handler e1))).
Proof.
  unfold invoke_with. destruct (op e) as [[a|x|] e1].
  - left. eauto.
  - right. left. eauto.
  - right. right. exists e1. split; [done|].
    unfold mbind, M_bind, bind, raise, result_of, trace_of.
    destruct (handler e1) as [[[[]|x|s|k] e2] t2]; cbn; by rewrite ?app_nil_r.
Qed.

Lemma invoke_with_ans {A} (handler : M ()) c (show : A → outcome) op e a e1 :
  op e = (Ans a, e1) →
  invoke_with handler c show op e = (Ret a, e1, [Call c (show a)]).
Proof. unfold invoke_with. by intros ->. Qed.

Lemma invoke_with_throw {A} (handler : M ()) c (show : A → outcome) op e x e1 :
  op e = (Throw x, e1) →
  invoke_with handler c show op e = (Raise x, e1, [Call c (Raised x)]).
Proof. unfold invoke_with. by intros ->. Qed.

(** Before the handler is installed SIGTERM kills the process. *)
Lemma invoke_with_killed {A} c (show : A → outcome) op e e1 :
  op e = (Sigterm, e1) →
  invoke_with default_action c show op e =
    (Killed SIGTERM, e1, [Call c Interrupted]).
Proof. unfold invoke_with. by intros ->. Qed.

Lemma invoke_default_cases {A} c (show : A → outcome) op e :
  (∃ a e1, op e = (Ans a, e1) ∧
     invoke_with default_action c show op e = (Ret a, e1, [Call c (show a)])) ∨
  (∃ x e1, op e = (Throw x, e1) ∧
     invoke_with default_action c show op e =
       (Raise x, e1, [Call c (Raised x)])) ∨
  (∃ e1, op e = (Sigterm, e1) ∧
     invoke_with default_action c show op e =
       (Killed SIGTERM, e1, [Call c Interrupted])).
Proof.
  destruct (op e) as [[a|x|] e1] eqn:Hop.
  - left. exists a, e1. by rewrite (invoke_with_ans _ _ _ _ _ _ _ Hop).
  - right. left. exists x, e1. by rewrite (invoke_with_throw _ _ _ _ _ _ _ Hop).
  - right. right. exists e1. by rewrite (invoke_with_killed _ _ _ _ _ Hop).
Qed.

Lemma emits_invoke_with {A} Q (handler : M ()) c (show : A → outcome) op :
  closed Q → emits Q handler → (∀ o, Q [Call c o]) →
  emits Q (invoke_with handler c show op).
Proof.
  intros HQ Hh Hc e. unfold trace_of.
  destruct (invoke_with_cases handler c show op e)
    as [(? & ? & _ & ->)|[(? & ? & _ & ->)|(e1 & _ & ->)]]; cbn; try done.
  apply (closed_app _ HQ [_]); [done | apply Hh].
Qed.

(** [stop] always ends in [sys.exit(0)]. *)
Lemma stop_at_spec room e :
  ∃ e1 ts, stop_at room e = (Exit 0, e1, ts) ∧ stopping ts.
Proof.
  revert e. induction room as [|n IH]; intros e; cbn [stop_at];
    unfold try_finally, sys_exit;
    match goal with
    | |- context [invoke_with ?h _ _ _ e] =>
        destruct (invoke_with_cases h ReleaseIfLocking (λ _ : (), Returned)
                    release_if_locking e)
          as [(? & e1 & _ & ->)|[(? & e1 & _ & ->)|(e1 & _ & ->)]]
    end;
    try (eexists _, _; split; [done | constructor]).
  unfold mbind, M_bind, bind, logging, result_of, trace_of. cbn.
  destruct (IH e1) as (e2 & ts & -> & Hts). cbn.
  eexists _, _. split; [by rewrite app_nil_r | by constructor].
Qed.

Lemma stop_eq e : ∃ e1 ts, stop e = (Exit 0, e1, ts) ∧ stopping ts.
Proof. apply stop_at_spec. Qed.

Lemma stop_returned e e1 :
  release_if_locking e = (Ans (), e1) →
  stop e = (Exit 0, e1, [Call ReleaseIfLocking Returned]).
Proof.
  intros Hrel. unfold stop.
  destruct (recursion_room e); cbn [stop_at]; unfold try_finally, sys_exit;
    by rewrite (invoke_with_ans _ _ _ _ _ _ _ Hrel).
Qed.

Lemma stop_raised e x e1 :
  release_if_locking e = (Throw x, e1) →
  stop e = (Exit 0, e1, [Call ReleaseIfLocking (Raised x)]).
Proof.
  intros Hrel. unfold stop.
  destruct (recursion_room e); cbn [stop_at]; unfold try_finally, sys_exit;
    by rewrite (invoke_with_throw _ _ _ _ _ _ _ Hrel).
Qed.

Lemma interrupted_eq e :
  ∃ e1 ts, interrupted e =
    (Exit 0, e1, Log INFO "Interrupted. Releasing lock." :: ts) ∧ stopping ts.
Proof.
  unfold interrupted, mbind, M_bind, bind, logging.
  destruct (stop_eq e) as (e1 & ts & -> & Hts). eauto.
Qed.

Lemma stopping_handles Q ts : handles Q → stopping ts → Q ts.
Proof.
  intros (HQ & Hlog & Hrel). induction 1 as [o|ts _ IH]; [apply Hrel|].
  apply (closed_app _ HQ [_]); [apply Hrel|].
  by apply (closed_app _ HQ [_]).
Qed.

Lemma emits_stop Q : handles Q → emits Q stop.
Proof.
  intros HQ e. destruct (stop_eq e) as (e1 & ts & -> & Hts).
  by apply stopping_handles.
Qed.

Lemma emits_interrupted Q : handles Q → emits Q interrupted.
Proof.
  intros HQ e. destruct (interrupted_eq e) as (e1 & ts & -> & Hts).
  apply (closed_app _ (proj1 HQ) [_]); [apply HQ | by apply stopping_handles].
Qed.

Lemma emits_invoke {A} Q c (show : A → outcome) op :
  handles Q → (∀ o, Q [Call c o]) → emits Q (invoke c show op).
Proof.
  intros HQ Hc. apply emits_invoke_with; [apply HQ | | done].
  by apply emits_interrupted.
Qed.

Lemma emits_sleep Q d :
  handles Q → (∀ o, Q [Call Sleep o]) → emits Q (time_sleep d).
Proof. apply emits_invoke. Qed.

Lemma emits_now Q (handler : M ()) :
  closed Q → emits Q handler → (∀ o, Q [Call DatetimeNow o]) →
  emits Q (datetime_now handler).
Proof. apply emits_invoke_with. Qed.

Lemma emits_randint Q (handler : M ()) a b :
  closed Q → emits Q handler → (∀ o, Q [Call (RandomRandint a b) o]) →
  emits Q (random_randint handler a b).
Proof.
  intros HQ Hh Hc. apply emits_bind; [done | by apply emits_invoke_with|].
  intros x. by apply emits_ret.
Qed.

Lemma emits_try_except {A} Q (body : M A) handler :
  closed Q → emits Q body → (∀ x h, handler x = Some h → emits Q h) →
  emits Q (try_except body handler).
Proof.
  intros HQ Hb Hh e. specialize (Hb e). unfold try_except, trace_of in *.
  destruct (body e) as [[[a|x|s|k] e1] t1]; simpl in *; try done.
  destruct (handler x) as [h|] eqn:Hx; [|done].
  specialize (Hh x h Hx e1). destruct (h e1) as [[r e2] t2]. by apply HQ.
Qed.

(** The three ways a call to a collaborator ends once the handler is
    installed. *)
Lemma invoke_cases {A} c (show : A → outcome) op e :
  (∃ a e1, op e = (Ans a, e1) ∧
     invoke c show op e = (Ret a, e1, [Call c (show a)])) ∨
  (∃ x e1, op e = (Throw x, e1) ∧
     invoke c show op e = (Raise x, e1, [Call c (Raised x)])) ∨
  (∃ e1 e2 ts, op e = (Sigterm, e1) ∧ stopping ts ∧
     invoke c show op e =
       (Exit 0, e2, Call c Interrupted ::
                    Log INFO "Interrupted. Releasing lock." :: ts)).
Proof.
  unfold invoke.
  destruct (invoke_with_cases interrupted c show op e)
    as [Hans|[Hthrow|(e1 & Hop & ->)]]; [by left | by right; left|].
  right. right. unfold result_of, trace_of.
  destruct (interrupted_eq e1) as (e2 & ts & -> & Hts). cbn. eauto 10.
Qed.

Lemma invoke_ans {A} c (show : A → outcome) op e a e1 :
  op e = (Ans a, e1) → invoke c show op e = (Ret a, e1, [Call c (show a)]).
Proof. apply invoke_with_ans. Qed.

Lemma invoke_throw {A} c (show : A → outcome) op e x e1 :
  op e = (Throw x, e1) → invoke c show op e = (Raise x, e1, [Call c (Raised x)]).
Proof. apply invoke_with_throw. Qed.

Lemma sleep_done d e e1 :
  sleep d e = (Ans (), e1) → time_sleep d e = (Ret (), e1, [Call Sleep Returned]).
Proof. apply (invoke_ans Sleep (λ _, Returned)). Qed.

Lemma sleep_raised d e x e1 :
  sleep d e = (Throw x, e1) →
  time_sleep d e = (Raise x, e1, [Call Sleep (Raised x)]).
Proof. apply (invoke_throw Sleep (λ _, Returned)). Qed.

Lemma sleep_cases d e :
  (∃ e1, sleep d e = (Ans (), e1) ∧
     time_sleep d e = (Ret (), e1, [Call Sleep Returned])) ∨
  (∃ x e1, sleep d e = (Throw x, e1) ∧
     time_sleep d e = (Raise x, e1, [Call Sleep (Raised x)])) ∨
  (∃ e1 e2 ts, sleep d e = (Sigterm, e1) ∧ stopping ts ∧
     time_sleep d e =
       (Exit 0, e2, Call Sleep Interrupted ::
                    Log INFO "Interrupted. Releasing lock." :: ts)).
Proof.
  destruct (invoke_cases Sleep (λ _ : (), Returned) (sleep d) e)
    as [([] & e1 & Hop & Heq)|[Hthrow|Hsig]]; [left; eauto | by right; left|].
  by right; right.
Qed.

End Laws.

#[global] Arguments invoke_with : simpl never.
#[global] Arguments invoke : simpl never.
#[global] Arguments time_sleep : simpl never.
#[global] Arguments datetime_now : simpl never.
#[global] Arguments stop_at : simpl never.
#[global] Arguments stop : simpl never.
#[global] Arguments interrupted : simpl never.

(** ** Automation *)

(** [absent p] of an explicit trace, possibly ending in what [stop] left. *)
Ltac quiet :=
  repeat first
    [ done
    | apply Forall_nil_2
    | apply Forall_cons; split; [done|]
    | apply absent_app
    | by apply stopping_absent ].

(** A trace property at a single event. *)
Ltac leaf :=
  first [ done
        | by repeat constructor
        | by apply absent_preceded; repeat constructor
        | by apply absent_after; repeat constructor ].

(** [preceded_by g p] of an explicit trace in which [p] holds of no event,
    or of the one that comes right after [g] only. *)
Ltac guarded g :=
  first
    [ by apply absent_preceded; quiet
    | apply (preceded_app _ _ (g ++ [_]));
      [ apply preceded_guard; quiet | apply absent_preceded; quiet ] ].

(** The same, with events that [p] does not hold of before [g]. *)
Ltac guarded_in g :=
  first
    [ guarded g
    | apply (preceded_app _ _ [_]); [by apply absent_preceded; quiet|];
      guarded_in g ].

(** A count over an explicit trace, possibly ending in what [stop] left. *)
Ltac tally :=
  cbn;
  try match goal with
      | H : stopping ?ts |- _ =>
          rewrite (absent_count _ ts) by (by apply stopping_absent)
      end;
  lia.

Ltac handles_tac :=
  split; [first [apply absent_closed | apply preceded_closed]
         | split; [leaf | intros ?; leaf]].

(** Facts about named computations, added as they are proved. *)
Ltac emits_known := fail.

(** Decompose a computation along its binds and branches. *)
Ltac emits_step HQ :=
  first [ emits_known
        | progress unfold lock_is_locked, lock_i_am_locking, lock_expired,
            lock_break_lock, lock_acquire, lock_update_lock
        | lazymatch goal with
  | |- emits _ (other_is_running _) => unfold other_is_running
  | |- emits _ (can_run _) => unfold can_run
  | |- emits _ (run _) => unfold run
  | |- emits _ (run_if_locking _) => unfold run_if_locking
  | |- emits _ (should_run _) => unfold should_run
  | |- emits _ (loop_body _) => unfold loop_body
  | |- emits _ (setup _) => unfold setup
  | |- emits _ interrupted => apply emits_interrupted, HQ
  | |- emits _ default_action => apply emits_default_action, HQ
  | |- emits _ (try_except _ _) =>
      apply emits_try_except;
      [ apply HQ | | intros [] ? ?; simplify_eq/= ]
  | |- emits _ (mbind _ _) => apply emits_bind; [apply HQ | | intros ?]
  | |- emits _ (mret _) => apply emits_ret, HQ
  | |- emits _ (if ?b then _ else _) => destruct b
  | |- emits _ (match ?fl with Continue => _ | Break => _ end) => destruct fl
  | |- emits _ (logging _ _) => apply emits_logging; leaf
  | |- emits _ (invoke _ _ _) => apply emits_invoke; [exact HQ | intros ?; leaf]
  | |- emits _ (invoke_with _ _ _ _) =>
      apply emits_invoke_with; [apply HQ | | intros ?; leaf]
  | |- emits _ (time_sleep _) => apply emits_sleep; [exact HQ | intros ?; leaf]
  | |- emits _ (lift _) => apply emits_lift, HQ
  | |- emits _ stop => apply emits_stop, HQ
  | |- emits _ (datetime_now _) =>
      apply emits_now; [apply HQ | | intros ?; leaf]
  | |- emits _ (random_randint _ _ _) =>
      apply emits_randint; [apply HQ | | intros ?; leaf]
  end ].

Ltac emits_tac HQ :=
  unfold lock_is_locked, lock_i_am_locking, lock_expired, lock_break_lock,
    lock_acquire, lock_update_lock;
  repeat emits_step HQ.

(** Run a computation on an arbitrary environment, one call at a time. *)
Ltac exec_step :=
  match goal with
  | H : ?op ?e = (Ans _, _) |- context [invoke ?c ?s ?op ?e] =>
      rewrite (invoke_ans c s op e _ _ H)
  | H : ?op ?e = (Throw _, _) |- context [invoke ?c ?s ?op ?e] =>
      rewrite (invoke_throw c s op e _ _ H)
  | H : sleep ?d ?e = (Ans (), _) |- context [time_sleep ?d ?e] =>
      rewrite (sleep_done d e _ H)
  | H : ?op ?e = (Ans _, _)
    |- context [invoke_with ?h ?c ?s ?op ?e] =>
      rewrite (invoke_with_ans h c s op e _ _ H)
  | |- context [invoke_with default_action ?c ?s ?op ?e] =>
      let H := fresh "Hcall" in
      destruct (invoke_default_cases c s op e)
        as [(? & ? & H & ->)|[(? & ? & H & ->)|(? & H & ->)]]
  | |- context [invoke ?c ?s ?op ?e] =>
      let H := fresh "Hcall" in
      let Hts := fresh "Hts" in
      destruct (invoke_cases c s op e)
        as [(? & ? & H & ->)|[(? & ? & H & ->)|(? & ? & ? & H & Hts & ->)]]
  | |- context [time_sleep ?d ?e] =>
      let H := fresh "Hcall" in
      let Hts := fresh "Hts" in
      destruct (sleep_cases d e)
        as [(? & H & ->)|[(? & ? & H & ->)|(? & ? & ? & H & Hts & ->)]]
  | |- context [stop ?e] =>
      let Hts := fresh "Hts" in
      destruct (stop_eq e) as (? & ? & -> & Hts)
  | |- context [negb ?b] => is_var b; destruct b
  | |- context [if ?b then _ else _] => is_var b; destruct b
  end.

Ltac unfold_lock :=
  unfold lock_is_locked, lock_i_am_locking, lock_expired, lock_break_lock,
    lock_acquire, lock_update_lock in *.

Ltac exec :=
  unfold_lock; unfold mbind, M_bind, bind, mret, M_ret, ret in *;
  repeat (cbn; exec_step); cbn.

Section LockProtocol.
Context {E PL V P : Type} `{!Environment E PL V P}.
Implicit Types (e : E) (w : WorkerInit) (pw : PlaylistWorker).
Local Abbreviation M := (M (E:=E)).
Local Abbreviation emits := (emits (E:=E)).
Local Abbreviation post := (post (E:=E)).

Lemma other_is_running_breaks w :
  emits (preceded_by (stale_other (lock_expiration w)) is_break)
    (other_is_running w).
Proof.
  intros e. unfold other_is_running, trace_of. exec.
  all: guarded (stale_other (lock_expiration w)).
Qed.

(** When [other_is_running] answers [True], it has seen the lock held, by
    someone else, and not expired. *)
Lemma other_is_running_true w e e1 t1 :
  other_is_running w e = (Ret true, e1, t1) →
  t1 = [ Call IsLocked (ReturnedBool true);
         Call IAmLocking (ReturnedBool false);
         Call (Expired (lock_expiration w)) (ReturnedBool false) ].
Proof.
  unfold other_is_running. exec; intros; by simplify_eq.
Qed.

(** C1. On a tick where [other_is_running] returns true (the lock is held
    by another process whose claim has not expired), the worker does not
    run the task: [can_run] logs, calls [stop], which releases and exits
    with status 0; the exit is caught by no clause of the loop, so the
    whole process ends instead of the loop going to its next tick. *)
Theorem abdication_exits_process pw e e1 t1 :
  other_is_running (init pw) e = (Ret true, e1, t1) →
  t1 = [ Call IsLocked (ReturnedBool true);
         Call IAmLocking (ReturnedBool false);
         Call (Expired (lock_expiration (init pw))) (ReturnedBool false) ] ∧
  ∃ e2 ts,
    stop e1 = (Exit 0, e2, ts) ∧ stopping ts ∧
    (∀ a e', release_if_locking e1 = (a, e') → a ≠ Sigterm →
       ∃ o, ts = [Call ReleaseIfLocking o]) ∧
    let t := t1 ++ Log WARNING "Someone else acquired the lock" :: ts in
    can_run (init pw) e = (Exit 0, e2, t) ∧
    run_if_locking pw e = (Exit 0, e2, t) ∧
    loop_body pw e = (Exit 0, e2, t) ∧
    absent is_task t ∧ absent is_renewal t ∧
    ∀ n e0 t0, should_run pw e0 = (Ret true, e, t0) →
      polling (S n) pw e0 = Some (Exit 0, e2, t0 ++ t).
Proof.
  intros Hother. pose proof (other_is_running_true _ _ _ _ Hother) as Ht.
  split; [done|].
  destruct (stop_eq e1) as (e2 & ts & Hstop & Hts). exists e2, ts.
  assert (can_run (init pw) e = (Exit 0, e2,
    t1 ++ Log WARNING "Someone else acquired the lock" :: ts)) as Hcan.
  { unfold can_run, mbind, M_bind, bind. rewrite Hother. cbn. by rewrite Hstop. }
  assert (run_if_locking pw e = (Exit 0, e2,
    t1 ++ Log WARNING "Someone else acquired the lock" :: ts)) as Hrun.
  { unfold run_if_locking, mbind, M_bind, bind. by rewrite Hcan. }
  assert (loop_body pw e = (Exit 0, e2,
    t1 ++ Log WARNING "Someone else acquired the lock" :: ts)) as Hbody.
  { unfold loop_body, try_except, mbind, M_bind, bind. by rewrite Hrun. }
  cbn zeta. repeat split; try done.
  - intros a e' Hrel Ha. destruct a as [[]|x|]; [| |done].
    + rewrite (stop_returned _ _ Hrel) in Hstop. simplify_eq. eauto.
    + rewrite (stop_raised _ _ _ Hrel) in Hstop. simplify_eq. eauto.
  - subst t1. quiet.
  - subst t1. quiet.
  - intros n e0 t0 Hshould. cbn [polling]. by rewrite Hshould, Hbody.
Qed.

(** C2, as the code has it. On a tick where the lock is held by another
    holder whose claim has expired, the worker breaks the lock and
    [other_is_running] returns false; [can_run] then asks [is_locked] again
    within the same tick: when the lock is seen free it calls [acquire] with
    the configured timeout in that tick, and only when it is seen held again
    does the tick go by without an acquisition. *)
Theorem stale_lock_broken_then_acquired w e e1 e2 e3 e4 :
  is_locked e = (Ans true, e1) →
  i_am_locking e1 = (Ans false, e2) →
  expired (lock_expiration w) e2 = (Ans true, e3) →
  break_lock e3 = (Ans (), e4) →
  other_is_running w e =
    (Ret false, e4, stale_other (lock_expiration w) ++ [Call BreakLock Returned]) ∧
  (∀ e5, is_locked e4 = (Ans false, e5) →
     ∃ r e6 o t,
       can_run w e =
         (r, e6, stale_other (lock_expiration w) ++
                 [ Call BreakLock Returned;
                   Call IsLocked (ReturnedBool false);
                   Call (Acquire (lock_timeout w)) o ] ++ t)) ∧
  (∀ e5, is_locked e4 = (Ans true, e5) →
     absent is_acquire (trace_of (can_run w e))).
Proof.
  intros H1 H2 H3 H4.
  assert (other_is_running w e =
    (Ret false, e4, stale_other (lock_expiration w) ++ [Call BreakLock Returned]))
    as Hother.
  { unfold other_is_running. exec. done. }
  split; [done|]. split.
  - intros e5 H5. unfold can_run, mbind at 1, M_bind at 1, bind at 1.
    rewrite Hother. exec; eauto.
  - intros e5 H5. unfold can_run, mbind at 1, M_bind at 1, bind at 1.
    rewrite Hother. unfold trace_of. exec; quiet.
Qed.

Lemma handles_break tol : handles (preceded_by (stale_other tol) is_break).
Proof. handles_tac. Qed.

Lemma handles_task : handles (absent is_task).
Proof. handles_tac. Qed.

Lemma handles_renewal : handles (absent is_renewal).
Proof. handles_tac. Qed.

Lemma can_run_no_task w : emits (absent is_task) (can_run w).
Proof. emits_tac handles_task. Qed.

Lemma can_run_no_renewal w : emits (absent is_renewal) (can_run w).
Proof. emits_tac handles_renewal. Qed.

Lemma run_no_renewal pw : emits (absent is_renewal) (run pw).
Proof. emits_tac handles_renewal. Qed.

(** [can_run] returns what [i_am_locking] has just answered. *)
Lemma can_run_last w e b e1 t :
  can_run w e = (Ret b, e1, t) →
  last t = Some (Call IAmLocking (ReturnedBool b)).
Proof.
  unfold can_run, other_is_running. exec; intros; by simplify_eq.
Qed.

(** The state [can_run] returns in is the one [i_am_locking] answered in. *)
Lemma can_run_state w e b e1 t :
  can_run w e = (Ret b, e1, t) → ∃ e0, i_am_locking e0 = (Ans b, e1).
Proof.
  unfold can_run, other_is_running. exec; intros; simplify_eq; eauto.
Qed.

End LockProtocol.

Ltac emits_known ::=
  lazymatch goal with
  | |- emits (preceded_by (stale_other _) is_break) (other_is_running _) =>
      apply other_is_running_breaks
  end.


Section Ticks.
Context {E PL V P : Type} `{!Environment E PL V P}.
Implicit Types (e : E) (w : WorkerInit) (pw : PlaylistWorker).
Local Abbreviation M := (M (E:=E)).
Local Abbreviation emits := (emits (E:=E)).
Local Abbreviation post := (post (E:=E)).

(** What a tick is once [can_run] has returned [True] in the state [e1]:
    the renewal on [e1], then the task from the state the renewal
    returned. *)
Lemma run_if_locking_granted pw e e1 t1 :
  can_run (init pw) e = (Ret true, e1, t1) →
  run_if_locking pw e =
    match update_lock e1 with
    | (Ans _, e2) =>
        (result_of (run pw e2), (run pw e2).1.2,
         t1 ++ Call UpdateLock Returned :: trace_of (run pw e2))
    | (Throw x, e2) => (Raise x, e2, t1 ++ [Call UpdateLock (Raised x)])
    | (Sigterm, e2) =>
        (Exit 0, (interrupted e2).1.2,
         t1 ++ Call UpdateLock Interrupted :: trace_of (interrupted e2))
    end.
Proof.
  intros Hcan. unfold run_if_locking. unfold mbind at 1, M_bind at 1, bind at 1.
  rewrite Hcan. unfold lock_update_lock, mbind, M_bind, bind, invoke.
  destruct (invoke_with_cases interrupted UpdateLock (λ _ : (), Returned)
              update_lock e1)
    as [([] & e2 & Hop & ->)|[(x & e2 & Hop & ->)|(e2 & Hop & ->)]];
    rewrite Hop.
  - unfold result_of, trace_of. by destruct (run pw e2) as [[r e3] t3].
  - done.
  - unfold result_of, trace_of.
    by destruct (interrupted_eq e2) as (e3 & ts & -> & _).
Qed.

(** C4. On a tick, the lock is renewed ([update_lock]) only right after
    [i_am_locking] has answered true, and every call of the task body comes
    after a renewal that returned. When [can_run] grants the tick, it does
    so in the state in which [i_am_locking] answered true; [update_lock] is
    called on that state, and the task is [run] from the state the renewal
    returned: when the renewal raises or is interrupted by SIGTERM the task
    is not run. When [can_run] does not grant the tick ([False], an
    exception or an exit) the tick ends where [can_run] ended, with no
    renewal and nothing of the task. *)
Theorem renewal_then_task pw e :
  let tick := run_if_locking pw e in
  let grant := can_run (init pw) e in
  preceded_by [Call IAmLocking (ReturnedBool true)] is_renewal (trace_of tick) ∧
  after (Call UpdateLock Returned) is_task (trace_of tick) ∧
  (∀ e1 t1, grant = (Ret true, e1, t1) →
     (∃ e0, i_am_locking e0 = (Ans true, e1)) ∧
     (∃ t0, t1 = t0 ++ [Call IAmLocking (ReturnedBool true)]) ∧
     (∀ e2, update_lock e1 = (Ans (), e2) →
        tick = (result_of (run pw e2), (run pw e2).1.2,
                t1 ++ Call UpdateLock Returned :: trace_of (run pw e2))) ∧
     (∀ x e2, update_lock e1 = (Throw x, e2) →
        tick = (Raise x, e2, t1 ++ [Call UpdateLock (Raised x)])) ∧
     (∀ e2, update_lock e1 = (Sigterm, e2) →
        ∃ e3 ts,
          interrupted e2 =
            (Exit 0, e3, Log INFO "Interrupted. Releasing lock." :: ts) ∧
          tick = (Exit 0, e3,
                  t1 ++ Call UpdateLock Interrupted ::
                        Log INFO "Interrupted. Releasing lock." :: ts))) ∧
  (∀ r e1 t1, grant = (r, e1, t1) → r ≠ Ret true →
     tick = (match r with
             | Ret _ => Ret ()
             | Raise x => Raise x
             | Exit s => Exit s
             | Killed s => Killed s
             end, e1, t1) ∧
     absent is_task t1 ∧ absent is_renewal t1).
Proof.
  cbn zeta.
  pose proof (can_run_no_task (init pw) e) as Htask.
  pose proof (can_run_no_renewal (init pw) e) as Hrenew.
  unfold trace_of in Htask, Hrenew.
  destruct (can_run (init pw) e) as [[r e1] t1] eqn:Hcan. cbn in Htask, Hrenew.
  assert (r ≠ Ret true →
    run_if_locking pw e =
      (match r with
       | Ret _ => Ret ()
       | Raise x => Raise x
       | Exit s => Exit s
       | Killed s => Killed s
       end, e1, t1)) as Hdenied.
  { intros Hr. unfold run_if_locking, mbind, M_bind, bind. rewrite Hcan.
    destruct r as [[|]|x|s|k]; cbn; by rewrite ?app_nil_r. }
  assert (preceded_by [Call IAmLocking (ReturnedBool true)] is_renewal
            (trace_of (run_if_locking pw e)) ∧
          after (Call UpdateLock Returned) is_task
            (trace_of (run_if_locking pw e))) as [Hguard Hafter].
  { assert (r = Ret true ∨ r ≠ Ret true) as [->|Hr]
      by (destruct r as [[|]|x|s|k]; first [by left | by right]).
    - rewrite (run_if_locking_granted _ _ _ _ Hcan).
      pose proof (can_run_last _ _ _ _ _ Hcan) as Hlast.
      apply last_Some in Hlast as [t0 ->].
      apply Forall_app in Hrenew as [Hrenew _].
      pose proof (run_no_renewal pw) as Hrun.
      destruct (update_lock e1) as [[[]|x|] e2]; unfold trace_of; cbn.
      + specialize (Hrun e2). split.
        * rewrite <- (assoc_L (++)). apply preceded_app; [by apply absent_preceded|].
          apply (preceded_app _ _ ([_] ++ [_])); [|by apply absent_preceded].
          apply preceded_guard. quiet.
        * rewrite (cons_middle _ (t0 ++ _)), (assoc_L (++)). apply after_prefix.
          -- apply absent_app; [done | quiet].
          -- apply elem_of_app; right. by left.
      + split.
        * rewrite <- (assoc_L (++)). apply preceded_app; [by apply absent_preceded|].
          apply (preceded_guard [_]). quiet.
        * apply absent_after. apply absent_app; [done | quiet].
      + destruct (interrupted_eq e2) as (e3 & ts & -> & Hts). cbn. split.
        * rewrite <- (assoc_L (++)). apply preceded_app; [by apply absent_preceded|].
          apply (preceded_app _ _ ([_] ++ [_]));
            [apply preceded_guard | apply absent_preceded]; quiet.
        * apply absent_after. apply absent_app; [done | quiet].
    - rewrite (Hdenied Hr). unfold trace_of. cbn.
      split; [by apply absent_preceded | by apply absent_after]. }
  split; [done|]. split; [done|]. split.
  - intros e1' t1' [= -> <- <-].
    pose proof (run_if_locking_granted _ _ _ _ Hcan) as Htick.
    split; [by eapply can_run_state|]. split.
    { pose proof (can_run_last _ _ _ _ _ Hcan) as Hlast.
      apply last_Some in Hlast as [t0 ->]. by exists t0. }
    split; [|split].
    + intros e2 Hop. by rewrite Hop in Htick.
    + intros x e2 Hop. by rewrite Hop in Htick.
    + intros e2 Hop. rewrite Hop in Htick.
      destruct (interrupted_eq e2) as (e3 & ts & Hi & Hts).
      exists e3, ts. split; [done|]. rewrite Htick, Hi. done.
  - intros r' e1' t1' [= <- <- <-] Hr. split; [by apply Hdenied|]. done.
Qed.

End Ticks.

(** ** The shutdown discipline *)

Lemma clean_app {A} (r : result A) (t1 t2 : trace) :
  absent is_release t1 → clean r t2 → clean r (t1 ++ t2).
Proof.
  intros H1 H2. destruct r as [a|x|s|k]; cbn in *;
    [by apply absent_app.. | | done].
  destruct H2 as (-> & t0 & ts & -> & H0 & Hts). split; [done|].
  exists (t1 ++ t0), ts. rewrite (assoc_L (++)).
  by split; [|split; [apply absent_app|]].
Qed.

Lemma clean_exit {A} (r : result A) (t : trace) (s : Z) :
  clean r t → r = Exit s →
  s = 0 ∧ (1 ≤ count is_release t)%nat ∧
  ∃ o, last t = Some (Call ReleaseIfLocking o).
Proof.
  intros Hc ->. destruct Hc as (-> & t0 & ts & -> & H0 & Hts). split; [done|].
  split.
  - rewrite count_app. pose proof (stopping_released _ Hts). lia.
  - destruct (stopping_last _ Hts) as [o Hlast]. exists o.
    destruct (stopping_first _ Hts) as (o' & rest & ->).
    by rewrite last_app, Hlast.
Qed.

Section Discipline.
Context {E PL V P : Type} `{!Environment E PL V P}.
Implicit Types (e : E) (w : WorkerInit) (pw : PlaylistWorker).
Local Abbreviation M := (M (E:=E)).
Local Abbreviation emits := (emits (E:=E)).
Local Abbreviation post := (post (E:=E)).

Lemma clean_ret {A} (a : A) : post (mret a : M A) clean.
Proof. intros e. constructor. Qed.

Lemma clean_bind {A B} (m : M A) (f : A → M B) :
  post m clean → (∀ a, post (f a) clean) → post (m ≫= f) clean.
Proof.
  intros Hm Hf e. specialize (Hm e).
  unfold mbind, M_bind, bind, trace_of, result_of in *.
  destruct (m e) as [[[a|x|s|k] e1] t1]; cbn in *; try done.
  specialize (Hf a e1). unfold trace_of, result_of in Hf.
  destruct (f a e1) as [[r e2] t2]. cbn in *. by apply clean_app.
Qed.

Lemma clean_logging l msg : post (logging l msg) clean.
Proof. intros e. repeat constructor. Qed.

Lemma clean_stop : post stop clean.
Proof.
  intros e. destruct (stop_eq e) as (e1 & ts & -> & Hts). split; [done|].
  exists [], ts. split; [done|]. split; [constructor | done].
Qed.

Lemma clean_interrupted : post interrupted clean.
Proof.
  intros e. destruct (interrupted_eq e) as (e1 & ts & -> & Hts). split; [done|].
  exists [Log INFO "Interrupted. Releasing lock."], ts.
  split; [done|]. split; [by repeat constructor | done].
Qed.

Lemma clean_invoke_with {A} (handler : M ()) c (show : A → outcome) op :
  (∀ o, is_release (Call c o) = false) → post handler clean →
  post (invoke_with handler c show op) clean.
Proof.
  intros Hc Hh e. unfold trace_of, result_of.
  destruct (invoke_with_cases handler c show op e)
    as [(? & ? & _ & ->)|[(? & ? & _ & ->)|(e1 & _ & ->)]]; cbn.
  - by repeat constructor.
  - by repeat constructor.
  - specialize (Hh e1).
    apply (clean_app _ [Call c Interrupted]); [by repeat constructor|].
    by destruct (result_of (handler e1)).
Qed.

Lemma clean_invoke {A} c (show : A → outcome) op :
  (∀ o, is_release (Call c o) = false) → post (invoke c show op) clean.
Proof. intros Hc. apply clean_invoke_with; [done | apply clean_interrupted]. Qed.

Lemma clean_sleep d : post (time_sleep d) clean.
Proof. by apply clean_invoke. Qed.

Lemma clean_now (handler : M ()) :
  post handler clean → post (datetime_now handler) clean.
Proof. by apply clean_invoke_with. Qed.

Lemma clean_randint (handler : M ()) a b :
  post handler clean → post (random_randint handler a b) clean.
Proof.
  intros Hh. apply clean_bind; [by apply clean_invoke_with|].
  intros x. apply clean_ret.
Qed.

Lemma clean_try_except {A} (body : M A) handler :
  post body clean → (∀ x h, handler x = Some h → post h clean) →
  post (try_except body handler) clean.
Proof.
  intros Hb Hh e. specialize (Hb e). unfold try_except, trace_of, result_of in *.
  destruct (body e) as [[[a|x|s|k] e1] t1]; cbn in *; try done.
  destruct (handler x) as [h|] eqn:Hx; [|done].
  specialize (Hh x h Hx e1). unfold trace_of, result_of in Hh.
  destruct (h e1) as [[r e2] t2]. cbn in *. by apply clean_app.
Qed.

(** [filter_playlists_for_worker] returns or raises [KeyError]; it never
    exits. *)
Lemma filter_returns_or_raises w (playlists : PL) :
  (∃ wp, filter_playlists_for_worker w playlists = Ret wp) ∨
  filter_playlists_for_worker w playlists = Raise KeyError.
Proof.
  unfold filter_playlists_for_worker.
  generalize (∅ : gmap string V).
  induction (selected_streams w playlists) as [|stream rest IH]; intros acc; cbn.
  - left. eauto.
  - destruct (streams_of playlists !! stream); [apply IH | by right].
Qed.

Lemma clean_filter w (playlists : PL) :
  post (lift (filter_playlists_for_worker w playlists)) clean.
Proof.
  intros e. unfold lift, trace_of, result_of. cbn.
  destruct (filter_returns_or_raises w playlists) as [[wp ->]| ->]; constructor.
Qed.

End Discipline.

Ltac clean_step :=
  first
    [ progress unfold lock_is_locked, lock_i_am_locking, lock_expired,
        lock_break_lock, lock_acquire, lock_update_lock
    | lazymatch goal with
      | |- post (other_is_running _) _ => unfold other_is_running
      | |- post (can_run _) _ => unfold can_run
      | |- post (run _) _ => unfold run
      | |- post (run_if_locking _) _ => unfold run_if_locking
      | |- post (should_run _) _ => unfold should_run
      | |- post (loop_body _) _ => unfold loop_body
      | |- post (setup _) _ => unfold setup
      | |- post (mbind _ _) _ => apply clean_bind; [ | intros ?]
      | |- post (mret _) _ => apply clean_ret
      | |- post (if ?b then _ else _) _ => destruct b
      | |- post (match ?fl with Continue => _ | Break => _ end) _ => destruct fl
      | |- post (logging _ _) _ => apply clean_logging
      | |- post (invoke _ _ _) _ => apply clean_invoke; by intros ?
      | |- post (invoke_with _ _ _ _) _ =>
          apply clean_invoke_with; [by intros ? | ]
      | |- post (time_sleep _) _ => apply clean_sleep
      | |- post (lift (filter_playlists_for_worker _ _)) _ => apply clean_filter
      | |- post stop _ => apply clean_stop
      | |- post interrupted _ => apply clean_interrupted
      | |- post (datetime_now _) _ => apply clean_now
      | |- post (random_randint _ _ _) _ => apply clean_randint
      | |- post (try_except _ _) _ =>
          apply clean_try_except; [ | intros [] ? ?; simplify_eq/= ]
      end ].

Ltac clean_tac := repeat clean_step.

Section Lifecycle.
Context {E PL V P : Type} `{!Environment E PL V P}.
Implicit Types (e : E) (w : WorkerInit) (pw : PlaylistWorker).
Local Abbreviation M := (M (E:=E)).
Local Abbreviation emits := (emits (E:=E)).
Local Abbreviation post := (post (E:=E)).

Lemma clean_run_if_locking pw : post (run_if_locking pw) clean.
Proof. clean_tac. Qed.

Lemma clean_loop_body pw : post (loop_body pw) clean.
Proof. clean_tac. Qed.

Lemma clean_should_run pw : post (should_run pw) clean.
Proof. clean_tac. Qed.

(** [setup] does not touch the lock. *)
Lemma setup_no_release w : emits (absent is_release) (setup w).
Proof. pose proof (absent_closed is_release) as HQ. emits_tac HQ. Qed.

End Lifecycle.

Section Startup.
Context {E PL V P : Type} `{!Environment E PL V P}.
Implicit Types (e : E) (w : WorkerInit) (pw : PlaylistWorker).


(** [setup] returns only that way. *)
Lemma setup_returns w e pw e1 t1 :
  setup w e = (Ret pw, e1, t1) →
  ∃ ea eb ec x t0,
    setup_logging (config w) ("worker for " +:+ playlist w) e = (Ans (), ea) ∧
    balancer_new (cfg_not_modified_tolerance (config w)) ea = (Ans (), eb) ∧
    entropy eb = (Ans x, ec) ∧
    now ec = (Ans t0, e1) ∧
    pw = set_up_worker w x t0 ∧ t1 = setup_trace w x t0.
Proof.
  unfold setup, random_randint, datetime_now. exec; intros; simplify_eq.
  repeat match goal with x : () |- _ => destruct x end. eauto 12.
Qed.

Lemma setup_call_outside c : is_setup_call c → outside_try c = true.
Proof.
  unfold is_setup_call. rewrite !elem_of_cons, elem_of_nil.
  by intros [->|[->|[->|[->|[]]]]].
Qed.

(** When [setup] does not return, one of its calls raised, or SIGTERM
    arrived during one of them and killed the process; nothing follows. *)
Lemma setup_fails w e :
  match setup w e with
  | (Ret pw, _, _) => init pw = w
  | (Raise x, _, t) =>
      ∃ t0 c, t = t0 ++ [Call c (Raised x)] ∧ is_setup_call c ∧
              absent is_interruption t0
  | (Killed s, _, t) =>
      s = SIGTERM ∧
      ∃ t0 c, t = t0 ++ [Call c Interrupted] ∧ is_setup_call c ∧
              absent is_interruption t0
  | (Exit _, _, _) => False
  end.
Proof.
  unfold setup, random_randint, datetime_now, is_setup_call. exec; try done.
  all: try split; try done.
  all: first
    [ by exists []; eexists; split; [done | split; [set_solver | quiet]]
    | by eexists [_; _]; eexists; split; [done | split; [set_solver | quiet]]
    | by eexists [_; _; _]; eexists; split; [done | split; [set_solver | quiet]]
    | by eexists [_; _; _; _]; eexists;
         split; [done | split; [set_solver | quiet]] ].
Qed.

End Startup.

Section Loop.
Context {E PL V P : Type} `{!Environment E PL V P}.
Implicit Types (e : E) (w : WorkerInit) (pw : PlaylistWorker).
Local Abbreviation M := (M (E:=E)).
Local Abbreviation emits := (emits (E:=E)).
Local Abbreviation post := (post (E:=E)).

(** The three ways [should_run] ends, after the three ways its reading of
    the clock ends. *)
Lemma should_run_cases pw e :
  (∃ t e1, now e = (Ans t, e1) ∧
     should_run pw e =
       (Ret (bool_decide (t < death_time pw)), e1,
        Call DatetimeNow (ReturnedZ t) ::
        if bool_decide (t < death_time pw) then []
        else [Log INFO ("Worker " +:+ worker_id (init pw) +:+
                        " should die now!")])) ∨
  (∃ x e1, now e = (Throw x, e1) ∧
     should_run pw e = (Raise x, e1, [Call DatetimeNow (Raised x)])) ∨
  (∃ e1 e2 ts, now e = (Sigterm, e1) ∧ stopping ts ∧
     should_run pw e =
       (Exit 0, e2, Call DatetimeNow Interrupted ::
                    Log INFO "Interrupted. Releasing lock." :: ts)).
Proof.
  unfold should_run, datetime_now.
  change (invoke_with interrupted DatetimeNow ReturnedZ now)
    with (invoke DatetimeNow ReturnedZ now).
  unfold mbind, M_bind, bind.
  destruct (invoke_cases DatetimeNow ReturnedZ now e)
    as [(t & e1 & Hop & ->)|[(x & e1 & Hop & ->)|(e1 & e2 & ts & Hop & Hts & ->)]].
  - left. exists t, e1. split; [done|].
    unfold logging, mret, M_ret, ret.
    by destruct (bool_decide (t < death_time pw)).
  - right. left. eauto.
  - right. right. eauto 10.
Qed.

(** The [try] statement of the loop body with its three [except] clauses:
    whatever the tick raises is caught. *)
Lemma try_catches_all pw e x :
  result_of (try_except (run_if_locking pw ≫= λ _ : (), mret Continue)
               except_clauses e) ≠ Raise x.
Proof.
  unfold try_except, mbind, M_bind, bind, result_of.
  destruct (run_if_locking pw e) as [[[[]|x'|s|k] e1] t1]; cbn; try done.
  by destruct x'.
Qed.

(** What the [try] statement does with an exception of the tick. *)
Lemma try_except_caught pw e x e1 t1 :
  run_if_locking pw e = (Raise x, e1, t1) →
  try_except (run_if_locking pw ≫= λ _ : (), mret Continue) except_clauses e =
    (Ret (if is_Exception x then Continue else Break), e1,
     t1 ++ [if is_Exception x then caught_log x
            else Log DEBUG "Quitting..."]).
Proof.
  intros Hrun. unfold try_except, mbind at 1, M_bind at 1, bind at 1.
  rewrite Hrun. by destruct x.
Qed.

(** An exception leaves the loop body only from the sleep, which is
    outside the [try] statement. *)
Lemma loop_body_raises pw e x e' t :
  loop_body pw e = (Raise x, e', t) →
  ∃ e1 t1, sleep 100000 e1 = (Throw x, e') ∧
           t = t1 ++ [Call Sleep (Raised x)] ∧ absent is_release t1.
Proof.
  unfold loop_body. unfold mbind at 1, M_bind at 1, bind at 1.
  pose proof (try_catches_all pw e) as Hcatch.
  assert (post (try_except (run_if_locking pw ≫= λ _ : (), mret Continue)
                  except_clauses) clean) as Hc by clean_tac.
  specialize (Hc e). unfold result_of, trace_of in Hcatch, Hc.
  destruct (try_except _ _ e) as [[[[|]|x'|s|k] e1] t1]; cbn in Hc |- *;
    try done; [|by destruct (Hcatch x')].
  unfold mbind, M_bind, bind.
  destruct (sleep_cases 100000 e1)
    as [(e2 & Hs & ->)|[(y & e2 & Hs & ->)|(e2 & e3 & ts & Hs & Hts & ->)]];
    cbn; try done.
  intros [= <- <- <-]. by exists e1, t1.
Qed.

Lemma polling_S n pw e :
  polling (S n) pw e =
    match should_run pw e with
    | (Ret true, e1, t1) =>
        match loop_body pw e1 with
        | (Ret Continue, e2, t2) => prepend (t1 ++ t2) (polling n pw e2)
        | (Ret Break, e2, t2) => Some (Ret (), e2, t1 ++ t2)
        | (Raise x, e2, t2) => Some (Raise x, e2, t1 ++ t2)
        | (Exit s, e2, t2) => Some (Exit s, e2, t1 ++ t2)
        | (Killed s, e2, t2) => Some (Killed s, e2, t1 ++ t2)
        end
    | (Ret false, e1, t1) => Some (Ret (), e1, t1)
    | (Raise x, e1, t1) => Some (Raise x, e1, t1)
    | (Exit s, e1, t1) => Some (Exit s, e1, t1)
    | (Killed s, e1, t1) => Some (Killed s, e1, t1)
    end.
Proof. done. Qed.

Lemma polling_ends_well fuel pw e r e' t :
  polling fuel pw e = Some (r, e', t) → loop_ends_well r t.
Proof.
  revert e r e' t. induction fuel as [|n IH]; intros e r e' t Hp; [done|].
  rewrite polling_S in Hp.
  pose proof (clean_should_run pw e) as Hs.
  unfold trace_of, result_of in Hs.
  destruct (should_run_cases pw e)
    as [(t0 & e1 & _ & Heq)|[(x & e1 & _ & Heq)|(e1 & e2 & ts & _ & Hts & Heq)]];
    rewrite Heq in Hp, Hs; cbn in Hs.
  - set (ts := Call DatetimeNow _ :: _) in *. clearbody ts.
    destruct (bool_decide (t0 < death_time pw)); [|by simplify_eq].
    pose proof (clean_loop_body pw e1) as Hb.
    pose proof (loop_body_raises pw e1) as Hr.
    unfold trace_of, result_of in Hb.
    destruct (loop_body pw e1) as [[[[|]|x|s|k] e2] t2]; cbn in Hb.
    + destruct (polling n pw e2) as [[[r3 e3] t3]|] eqn:Hrec; [|done].
      cbn in Hp. simplify_eq. destruct (IH _ _ _ _ Hrec) as [Hc Hx].
      split; [apply clean_app; [by apply absent_app | done]|].
      intros x Hrx. destruct (Hx x Hrx) as (t0' & c & -> & Hcall).
      exists ((ts ++ t2) ++ t0'), c. by rewrite !(assoc_L (++)).
    + simplify_eq. split; [by apply absent_app | done].
    + simplify_eq. split; [by apply absent_app|].
      intros y [= <-]. destruct (Hr x e' t2 eq_refl) as (e3 & t1 & _ & -> & _).
      exists (ts ++ t1), Sleep. rewrite (assoc_L (++)). auto.
    + simplify_eq. split; [by apply clean_app | done].
    + done.
  - simplify_eq. split; [done|]. intros y [= <-].
    exists [], DatetimeNow. auto.
  - simplify_eq. split; [done | done].
Qed.

(** A run of [run_forever] is [setup]; when [setup] returned, the loop;
    and [stop] when the loop was left normally. *)
Lemma run_forever_split fuel w e r e' t :
  run_forever fuel w e = Some (r, e', t) →
  (∃ x, setup w e = (Raise x, e', t) ∧ r = Raise x) ∨
  (∃ s, setup w e = (Killed s, e', t) ∧ r = Killed s) ∨
  ∃ pw e1 t1 r2 e2 t2,
    setup w e = (Ret pw, e1, t1) ∧ init pw = w ∧
    polling fuel pw e1 = Some (r2, e2, t2) ∧
    ((r2 = Ret () ∧ ∃ ts, stop e2 = (r, e', ts) ∧ stopping ts ∧
        r = Exit 0 ∧ t = (t1 ++ t2) ++ ts) ∨
     (r2 = r ∧ r ≠ Ret () ∧ e2 = e' ∧ t = t1 ++ t2)).
Proof.
  unfold run_forever. pose proof (setup_fails w e) as Hsetup.
  destruct (setup w e) as [[[pw|x|s|k] e1] t1]; intros Hrun.
  - right. right. exists pw, e1, t1.
    destruct (polling fuel pw e1) as [[[r2 e2] t2]|] eqn:Hp; [|done].
    exists r2, e2, t2. split; [done|]. split; [done|]. split; [done|].
    destruct r2 as [[]|x|s|k]; cbn in Hrun.
    + left. split; [done|]. destruct (stop_eq e2) as (e3 & ts & Hstop & Hts).
      rewrite Hstop in Hrun |- *. simplify_eq. eauto.
    + right. by simplify_eq.
    + right. by simplify_eq.
    + right. by simplify_eq.
  - left. simplify_eq. eauto.
  - done.
  - right. left. simplify_eq. eauto.
Qed.

Lemma run_forever_ends_well fuel w e r e' t :
  run_forever fuel w e = Some (r, e', t) → ends_well r t.
Proof.
  intros Hrun. pose proof (setup_fails w e) as Hfail.
  pose proof (setup_no_release w e) as Hs. unfold trace_of in Hs.
  destruct (run_forever_split _ _ _ _ _ _ Hrun)
    as [(x & Hsetup & ->)|[(s & Hsetup & ->)|
        (pw & e1 & t1 & r2 & e2 & t2 & Hsetup & _ & Hp & Hcases)]];
    rewrite Hsetup in Hfail, Hs; cbn in Hs.
  - split; [done|]. destruct Hfail as (t0 & c & -> & Hc & _).
    exists t0, c. split; [done|].
    by apply setup_call_outside.
  - destruct Hfail as (-> & t0 & c & -> & Hc & Hq). split; [done|].
    split; [done|]. by exists t0, c.
  - destruct (polling_ends_well _ _ _ _ _ _ Hp) as [Hc Hx].
    destruct Hcases as [(-> & ts & _ & Hts & -> & ->)|(-> & Hne & -> & ->)].
    + split; [done|]. exists (t1 ++ t2), ts.
      split; [done|]. split; [by apply absent_app | done].
    + destruct r as [[]|x|s|k]; cbn in Hc |- *.
      * done.
      * split; [by apply absent_app|].
        destruct (Hx x eq_refl) as (t0 & c & -> & Hcall).
        exists (t1 ++ t0), c. rewrite (assoc_L (++)). split; [done|].
        by destruct Hcall as [-> | ->].
      * destruct Hc as (-> & t0 & ts & -> & H0 & Hts). split; [done|].
        exists (t1 ++ t0), ts. rewrite (assoc_L (++)).
        split; [done|]. split; [by apply absent_app | done].
      * done.
Qed.

(** A closed property of traces that every part of the loop respects holds
    of what the loop leaves behind. *)
Lemma polling_emits (Q : trace → Prop) pw :
  closed Q → emits Q (should_run pw) → emits Q (loop_body pw) →
  ∀ fuel e r e' t, polling fuel pw e = Some (r, e', t) → Q t.
Proof.
  intros HQ Hs Hb. induction fuel as [|n IH]; intros e r e' t Hp; [done|].
  cbn in Hp. specialize (Hs e). unfold trace_of in Hs.
  destruct (should_run pw e) as [[[[|]|x|s|k] e1] t1]; cbn in *; simplify_eq;
    try done.
  specialize (Hb e1). unfold trace_of in Hb.
  destruct (loop_body pw e1) as [[[[|]|x|s|k] e2] t2]; cbn in *; simplify_eq;
    try by apply HQ.
  destruct (polling n pw e2) as [[[r3 e3] t3]|] eqn:Hrec; [|done].
  cbn in Hp. simplify_eq. apply HQ; [by apply HQ | by eapply IH].
Qed.

Lemma run_forever_emits (Q : trace → Prop) w :
  handles Q → emits Q (setup w) →
  (∀ pw, init pw = w → emits Q (should_run pw)) →
  (∀ pw, init pw = w → emits Q (loop_body pw)) →
  ∀ fuel e r e' t, run_forever fuel w e = Some (r, e', t) → Q t.
Proof.
  intros HQ Hsetup Hs Hb fuel e r e' t Hrun.
  specialize (Hsetup e). unfold trace_of in Hsetup.
  destruct (run_forever_split _ _ _ _ _ _ Hrun)
    as [(x & Heq & ->)|[(s & Heq & ->)|
        (pw & e1 & t1 & r2 & e2 & t2 & Heq & Hinit & Hp & Hcases)]];
    rewrite Heq in Hsetup; cbn in Hsetup; [done..|].
  pose proof (polling_emits Q pw (proj1 HQ) (Hs pw Hinit) (Hb pw Hinit)
                _ _ _ _ _ Hp) as Hloop.
  destruct Hcases as [(-> & ts & _ & Hts & -> & ->)|(-> & Hne & -> & ->)].
  - apply HQ; [by apply HQ | by apply stopping_handles].
  - by apply HQ.
Qed.

End Loop.

(** ** The claims about the life cycle *)

Section Claims.
Context {E PL V P : Type} `{!Environment E PL V P}.
Implicit Types (e : E) (w : WorkerInit) (pw : PlaylistWorker).
Local Abbreviation M := (M (E:=E)).
Local Abbreviation emits := (emits (E:=E)).
Local Abbreviation post := (post (E:=E)).


Lemma run_if_locking_breaks pw :
  emits (preceded_by (stale_other (lock_expiration (init pw))) is_break)
    (run_if_locking pw).
Proof. emits_tac (handles_break (lock_expiration (init pw))). Qed.

Lemma loop_body_breaks pw :
  emits (preceded_by (stale_other (lock_expiration (init pw))) is_break)
    (loop_body pw).
Proof.
  unfold loop_body. pose proof (run_if_locking_breaks pw) as Hrun.
  pose proof (handles_break (lock_expiration (init pw))) as HQ.
  apply emits_bind; [apply HQ | | intros fl].
  - apply emits_try_except; [apply HQ | | intros [] ? ?; simplify_eq/=].
    + apply emits_bind; [apply HQ | done | intros ?; apply emits_ret, HQ].
    + emits_tac HQ.
    + emits_tac HQ.
    + emits_tac HQ.
    + emits_tac HQ.
  - emits_tac HQ.
Qed.

(** C3. [break_lock] is called only right after [is_locked] answered
    true, [i_am_locking] answered false and [expired], asked with the
    configured tolerance, answered true: never on a lock that is free, held
    by this worker, or held by another whose claim is still live. This holds
    of every tick and of the whole run. *)
Theorem break_lock_only_stale_other w :
  (∀ pw e, init pw = w →
     preceded_by (stale_other (lock_expiration w)) is_break
       (trace_of (run_if_locking pw e))) ∧
  (∀ fuel e r e' t, run_forever fuel w e = Some (r, e', t) →
     preceded_by (stale_other (lock_expiration w)) is_break t).
Proof.
  split.
  - intros pw e <-. apply run_if_locking_breaks.
  - pose proof (handles_break (lock_expiration w)) as HQ.
    apply run_forever_emits; [done | emits_tac HQ | |].
    + intros pw _. emits_tac HQ.
    + intros pw <-. apply loop_body_breaks.
Qed.

(** C5, as the code has it. A run that ends with an exit has gone through
    [stop]: [release_if_locking] is called there first, nothing before
    [stop] releases the lock and nothing but releases and the handler's log
    line follows; the number of calls is one plus the number of times
    SIGTERM arrived during a release and made the handler run [stop] again,
    so it is exactly one when no signal arrives during the release. A run
    ended by an exception raised outside the [try] statement, or killed by
    SIGTERM during [setup], has not called [release_if_locking]. Within a
    tick the lock is released only by [stop]. *)
Theorem release_on_every_stop fuel w e r e' t :
  run_forever fuel w e = Some (r, e', t) →
  match r with
  | Ret _ => False
  | Exit s =>
      s = 0 ∧
      ∃ t0 ts, t = t0 ++ ts ∧ absent is_release t0 ∧ stopping ts ∧
        count is_release t = S (count is_handler_log ts) ∧
        (absent is_interruption ts →
           count is_release t = 1%nat ∧
           ∃ o, ts = [Call ReleaseIfLocking o])
  | Raise x =>
      count is_release t = 0%nat ∧
      ∃ t0 c, t = t0 ++ [Call c (Raised x)] ∧ outside_try c = true
  | Killed s =>
      s = SIGTERM ∧ count is_release t = 0%nat ∧
      ∃ t0 c, t = t0 ++ [Call c Interrupted] ∧ is_setup_call c
  end ∧
  ∀ pw e0, clean (result_of (loop_body pw e0)) (trace_of (loop_body pw e0)).
Proof.
  intros Hrun. split; [|apply clean_loop_body].
  pose proof (run_forever_ends_well _ _ _ _ _ _ Hrun) as Hend.
  destruct r as [[]|x|s|k]; cbn in Hend.
  - done.
  - destruct Hend as [Hrel Hlast]. split; [by apply absent_count | done].
  - destruct Hend as (-> & t0 & ts & -> & H0 & Hts). split; [done|].
    exists t0, ts. split; [done|]. split; [done|]. split; [done|].
    rewrite count_app, (absent_count _ _ H0), (stopping_count _ Hts).
    split; [done|]. intros Hq.
    destruct (stopping_quiet _ Hts Hq) as (o & -> & _). eauto.
  - destruct Hend as (-> & Hrel & t0 & c & -> & Hc & _).
    split; [done|]. split; [by apply absent_count | eauto].
Qed.

(** C8, as the code has it. [stop] always ends in [sys.exit(0)], also when
    [release_if_locking] raises or is interrupted; so every run and every
    tick that exits does so with status 0. A run ends otherwise only when
    an exception raised outside the [try] statement escapes, or when
    SIGTERM arrives during [setup], before the handler is installed, and
    kills the process. *)
Theorem exit_status_zero_through_stop :
  (∀ e, ∃ e1 ts, stop e = (Exit 0, e1, ts) ∧ stopping ts) ∧
  (∀ e x e1, release_if_locking e = (Throw x, e1) →
     stop e = (Exit 0, e1, [Call ReleaseIfLocking (Raised x)])) ∧
  (∀ fuel w e r e' t, run_forever fuel w e = Some (r, e', t) →
     match r with
     | Ret _ => False
     | Exit s => s = 0
     | Raise x =>
         ∃ t0 c, t = t0 ++ [Call c (Raised x)] ∧ outside_try c = true
     | Killed s =>
         s = SIGTERM ∧
         ∃ t0 c, t = t0 ++ [Call c Interrupted] ∧ is_setup_call c
     end) ∧
  (∀ fuel pw e s e' t, polling fuel pw e = Some (Exit s, e', t) → s = 0) ∧
  (∀ fuel pw e k e' t, polling fuel pw e ≠ Some (Killed k, e', t)) ∧
  (∀ pw e s, result_of (run_if_locking pw e) = Exit s → s = 0).
Proof.
  split; [apply stop_eq|]. split; [apply stop_raised|].
  split; [|split; [|split]].
  - intros fuel w e r e' t Hrun.
    pose proof (run_forever_ends_well _ _ _ _ _ _ Hrun) as Hend.
    destruct r as [[]|x|s|k]; cbn in Hend; try done.
    + by destruct Hend as [_ ?].
    + by destruct Hend as [? _].
    + destruct Hend as (-> & _ & t0 & c & -> & Hc & _). eauto.
  - intros fuel pw e s e' t Hp.
    by destruct (polling_ends_well _ _ _ _ _ _ Hp) as [[-> _] _].
  - intros fuel pw e k e' t Hp.
    by destruct (polling_ends_well _ _ _ _ _ _ Hp) as [[] _].
  - intros pw e s Hr. pose proof (clean_run_if_locking pw e) as Hc.
    rewrite Hr in Hc. by destruct Hc as [-> _].
Qed.

(** C7, as the code has it. Whatever a tick raises is caught by the [try]
    statement: an exception of class [Exception] does not end the loop,
    [LockTimeout] is logged at debug level, any other one by
    [logging.exception], then the loop sleeps and goes to its next tick.
    The sleep and the reading of the clock are outside the [try]
    statement: an exception ends the loop only when one of these two calls
    raised it. *)
Theorem tick_exception_caught pw n e0 e1 t0 x e2 t1 e3 :
  should_run pw e0 = (Ret true, e1, t0) →
  run_if_locking pw e1 = (Raise x, e2, t1) →
  is_Exception x = true →
  sleep 100000 e2 = (Ans (), e3) →
  loop_body pw e1 =
    (Ret Continue, e3, t1 ++ [caught_log x; Call Sleep Returned]) ∧
  polling (S n) pw e0 =
    prepend (t0 ++ t1 ++ [caught_log x; Call Sleep Returned]) (polling n pw e3) ∧
  (∀ e y,
     result_of (try_except (run_if_locking pw ≫= λ _ : (), mret Continue)
                  except_clauses e) ≠ Raise y) ∧
  (∀ fuel e y e' t, polling fuel pw e = Some (Raise y, e', t) →
     ∃ t' c, t = t' ++ [Call c (Raised y)] ∧ (c = DatetimeNow ∨ c = Sleep)).
Proof.
  intros Hshould Hrun Hx Hsleep.
  assert (loop_body pw e1 =
    (Ret Continue, e3, t1 ++ [caught_log x; Call Sleep Returned])) as Hbody.
  { unfold loop_body. unfold mbind at 1, M_bind at 1, bind at 1.
    rewrite (try_except_caught _ _ _ _ _ Hrun), Hx.
    unfold mbind, M_bind, bind.
    rewrite (sleep_done _ _ _ Hsleep). cbn. by rewrite <- (assoc_L (++)). }
  split; [done|]. split; [|split].
  - rewrite polling_S. by rewrite Hshould, Hbody.
  - intros e y. apply try_catches_all.
  - intros fuel e y e' t Hp.
    destruct (polling_ends_well _ _ _ _ _ _ Hp) as [_ Hraise]. by apply Hraise.
Qed.



End Claims.

(** ** The selection of streams *)

Section Selection.
Context {E PL V P : Type} `{!Environment E PL V P}.
Implicit Types (e : E) (w : WorkerInit) (pw : PlaylistWorker).
Implicit Types (catalog acc : gmap string V) (streams : list string).

(** With every key present, the comprehension returns the catalog entries
    of the listed keys. *)
Lemma dict_comprehension_ret catalog streams acc :
  Forall (λ s, is_Some (catalog !! s)) streams →
  ∃ d, dict_comprehension catalog streams acc = Ret d ∧
       ∀ k, d !! k = if decide (k ∈ streams) then catalog !! k else acc !! k.
Proof.
  revert acc. induction streams as [|s rest IH]; intros acc Hall; cbn.
  - exists acc. split; [done|]. intros k. case_decide as Hk; [|done].
    by apply elem_of_nil in Hk.
  - apply Forall_cons in Hall as [[v Hv] Hall]. rewrite Hv.
    destruct (IH (<[s:=v]> acc) Hall) as (d & -> & Hd).
    exists d. split; [done|]. intros k. rewrite Hd.
    destruct (decide (k = s)) as [->|Hne].
    + rewrite lookup_insert_eq, Hv.
      rewrite (decide_True (P := s ∈ s :: rest)) by (by left).
      by case_decide.
    + rewrite lookup_insert_ne by done.
      destruct (decide (k ∈ rest)) as [Hrest|Hrest].
      * rewrite decide_True; [done | by right].
      * rewrite decide_False; [done|].
        intros [?|?]%elem_of_cons; done.
Qed.

(** One missing key is enough for [KeyError]. *)
Lemma dict_comprehension_raise catalog streams acc s :
  s ∈ streams → catalog !! s = None →
  dict_comprehension catalog streams acc = Raise KeyError.
Proof.
  revert acc. induction streams as [|s' rest IH]; intros acc Hin Hnone.
  - by apply elem_of_nil in Hin.
  - cbn. apply elem_of_cons in Hin as [->|Hin]; [by rewrite Hnone|].
    destruct (catalog !! s'); [by apply IH | done].
Qed.

(** What a variant worker selects, as a list. *)
Lemma selected_streams_variant w (playlists : PL) s :
  is_variant w = true →
  s ∈ selected_streams w playlists ↔
    s ∈ dom (streams_of playlists) ∧
    ∃ action, action ∈ get_actions playlists "combine" ∧
              output action = playlist w ∧ s ∈ input action.
Proof.
  intros Hv. unfold selected_streams. rewrite Hv.
  rewrite list_elem_of_filter, list_elem_of_join. split.
  - intros [Hdom (l & Hs & Hl)]. split; [done|].
    apply list_elem_of_fmap in Hl as (action & -> & Haction).
    apply list_elem_of_filter in Haction as [Hout Haction]. eauto.
  - intros [Hdom (action & Haction & Hout & Hs)]. split; [done|].
    exists (input action). split; [done|].
    apply list_elem_of_fmap. exists action. split; [done|].
    by apply list_elem_of_filter.
Qed.

(** C9. For a variant worker [filter_playlists_for_worker] returns (it
    raises nothing) and the streams it selects are exactly those that are
    an input of some combine action whose output is the worker's playlist
    and that are present in the catalog, each with its catalog entry: inputs
    absent from the catalog are left out. For a non-variant worker the list
    of selected streams is the worker's playlist alone; when the function
    returns, the selection is that singleton, and it returns whenever the
    playlist is in the catalog. *)
Theorem selected_streams_spec w (playlists : PL) :
  (is_variant w = true →
   ∃ d, filter_playlists_for_worker w playlists = Ret {[ "streams" := d ]} ∧
        d ⊆ streams_of playlists ∧
        ∀ s, s ∈ dom d ↔
             s ∈ dom (streams_of playlists) ∧
             ∃ action, action ∈ get_actions playlists "combine" ∧
                       output action = playlist w ∧ s ∈ input action) ∧
  (is_variant w = false →
   selected_streams w playlists = [playlist w] ∧
   (∀ v, streams_of playlists !! playlist w = Some v →
      filter_playlists_for_worker w playlists =
        Ret {[ "streams" := {[ playlist w := v ]} ]}) ∧
   (∀ wp, filter_playlists_for_worker w playlists = Ret wp →
      ∃ d, wp = {[ "streams" := d ]} ∧ dom d = {[ playlist w ]})).
Proof.
  split; intros Hv.
  - destruct (dict_comprehension_ret (streams_of playlists)
                (selected_streams w playlists) ∅) as (d & Hd & Hlook).
    { apply Forall_forall. intros s Hs.
      apply (selected_streams_variant _ _ _ Hv) in Hs as [Hs _].
      by apply elem_of_dom. }
    exists d. unfold filter_playlists_for_worker. rewrite Hd.
    split; [done|]. split.
    + apply map_subseteq_spec. intros k v. rewrite Hlook.
      case_decide; [done | by rewrite lookup_empty].
    + intros s. rewrite <- (selected_streams_variant _ _ _ Hv).
      rewrite elem_of_dom, Hlook. case_decide as Hs.
      * split; [done|]. intros _.
        apply (selected_streams_variant _ _ _ Hv) in Hs as [Hs _].
        by apply elem_of_dom.
      * rewrite lookup_empty. split; [by intros [] | done].
  - assert (selected_streams w playlists = [playlist w]) as Hsel.
    { unfold selected_streams. by rewrite Hv. }
    split; [done|]. unfold filter_playlists_for_worker. rewrite Hsel. cbn.
    split.
    + intros v ->. done.
    + intros wp. destruct (streams_of playlists !! playlist w) as [v|]; [|done].
      intros [= <-]. eexists. split; [done|].
      by rewrite insert_empty, dom_singleton_L.
Qed.

Lemma truthy_streams (d : gmap string V) :
  truthy ({[ "streams" := d ]} : gmap string (gmap string V)) = true.
Proof. unfold truthy. by rewrite map_size_singleton. Qed.

Lemma filter_ret_streams w (playlists : PL) wp :
  filter_playlists_for_worker w playlists = Ret wp →
  ∃ d, wp = {[ "streams" := d ]}.
Proof.
  unfold filter_playlists_for_worker.
  destruct (dict_comprehension _ _ _) as [d|x|s|k]; [|done..].
  intros [= <-]. by exists d.
Qed.

(** The warning of the branch [if not worker_playlists] is never logged. *)
Lemma run_never_unavailable pw e : absent is_unavailable (trace_of (run pw e)).
Proof.
  unfold run, trace_of. unfold mbind at 1, M_bind at 1, bind at 1.
  destruct (invoke_cases DiscoverPlaylists (λ _ : PL, Returned)
              (discover_playlists (config (init pw))) e)
    as [(playlists & e1 & _ & ->)|[(? & ? & _ & ->)|(? & ? & ? & _ & ? & ->)]];
    [|cbn; quiet..].
  unfold mbind at 1, M_bind at 1, bind at 1, lift.
  destruct (filter_playlists_for_worker (init pw) playlists)
    as [wp|x|s|k] eqn:Hf; [|by repeat constructor..].
  apply filter_ret_streams in Hf as [d ->]. rewrite truthy_streams.
  exec; quiet.
Qed.

(** C10. What [filter_playlists_for_worker] returns is a dictionary with
    the one key "streams", which is true as a condition even when no stream
    was selected; so [run] never takes the branch that logs "Playlist is not
    available anymore" and stops. A non-variant worker whose playlist is not
    in the catalog gets [KeyError] from the comprehension instead; [run]
    raises it right after the discovery, and the loop logs it as an unknown
    error, sleeps and goes on, without releasing the lock or stopping. *)
Theorem unavailable_branch_unreachable :
  (∀ w (playlists : PL) wp,
     filter_playlists_for_worker w playlists = Ret wp →
     (∃ d, wp = {[ "streams" := d ]}) ∧ is_Some (wp !! "streams") ∧
     truthy wp = true) ∧
  truthy ({[ "streams" := ∅ ]} : gmap string (gmap string V)) = true ∧
  (∀ pw e, absent is_unavailable (trace_of (run pw e))) ∧
  (∀ w (playlists : PL),
     is_variant w = false → streams_of playlists !! playlist w = None →
     filter_playlists_for_worker w playlists = Raise KeyError) ∧
  (∀ pw e playlists e1,
     is_variant (init pw) = false →
     discover_playlists (config (init pw)) e = (Ans playlists, e1) →
     streams_of playlists !! playlist (init pw) = None →
     run pw e = (Raise KeyError, e1, [Call DiscoverPlaylists Returned])) ∧
  (∀ pw e e1 t1 e2,
     run_if_locking pw e = (Raise KeyError, e1, t1) →
     sleep 100000 e1 = (Ans (), e2) →
     loop_body pw e =
       (Ret Continue, e2,
        t1 ++ [Log ERROR "An unknown error happened"; Call Sleep Returned]) ∧
     absent is_release (trace_of (loop_body pw e))).
Proof.
  assert (∀ w (playlists : PL),
     is_variant w = false → streams_of playlists !! playlist w = None →
     filter_playlists_for_worker w playlists = Raise KeyError) as Hkey.
  { intros w playlists Hv Hnone. unfold filter_playlists_for_worker.
    rewrite (dict_comprehension_raise _ _ _ (playlist w)); [done| |done].
    unfold selected_streams. rewrite Hv. by left. }
  split; [|split; [|split; [|split; [|split]]]].
  - intros w playlists wp Hf. destruct (filter_ret_streams _ _ _ Hf) as [d ->].
    split; [by exists d|]. split; [by rewrite lookup_singleton_eq|].
    apply truthy_streams.
  - apply truthy_streams.
  - apply run_never_unavailable.
  - exact Hkey.
  - intros pw e playlists e1 Hv Hdisc Hnone.
    unfold run. unfold mbind at 1, M_bind at 1, bind at 1.
    rewrite (invoke_ans _ _ _ _ _ _ Hdisc).
    unfold mbind at 1, M_bind at 1, bind at 1, lift.
    by rewrite (Hkey _ _ Hv Hnone).
  - intros pw e e1 t1 e2 Hrun Hsleep.
    assert (loop_body pw e = (Ret Continue, e2,
      t1 ++ [Log ERROR "An unknown error happened"; Call Sleep Returned]))
      as Hbody.
    { unfold loop_body. unfold mbind at 1, M_bind at 1, bind at 1.
      rewrite (try_except_caught _ _ _ _ _ Hrun). cbn.
      unfold mbind, M_bind, bind.
      rewrite (sleep_done _ _ _ Hsleep). cbn. by rewrite <- (assoc_L (++)). }
    split; [done|]. rewrite Hbody.
    pose proof (clean_run_if_locking pw e) as Hc. rewrite Hrun in Hc.
    apply absent_app; [exact Hc | by repeat constructor].
Qed.

End Selection.

(** ** Termination of the polling loop *)

Section Termination.
Context {E PL V P : Type} `{!Environment E PL V P} `{!Timed E PL V P}.
Implicit Types (e : E) (w : WorkerInit) (pw : PlaylistWorker).
Local Abbreviation M := (M (E:=E)).
Local Abbreviation mono := (mono (E:=E)).

Lemma mono_ret {A} (a : A) : mono (mret a : M A).
Proof. by intros e. Qed.

Lemma mono_bind {A B} (m : M A) (f : A → M B) :
  mono m → (∀ a, mono (f a)) → mono (m ≫= f).
Proof.
  intros Hm Hf e. specialize (Hm e). unfold mbind, M_bind, bind.
  destruct (m e) as [[[a|x|s|k] e1] t1]; cbn in *; try done.
  specialize (Hf a e1). destruct (f a e1) as [[r e2] t2]. cbn in *. lia.
Qed.

Lemma mono_logging l msg : mono (logging l msg).
Proof. by intros e. Qed.

Lemma mono_lift {A} (r : result A) : mono (lift r).
Proof. by intros e. Qed.

Lemma mono_invoke_with {A} (handler : M ()) c (show : A → outcome) op :
  mono handler → (∀ e, clock e ≤ clock (op e).2) →
  mono (invoke_with handler c show op).
Proof.
  intros Hh Hop e. specialize (Hop e).
  destruct (invoke_with_cases handler c show op e)
    as [(? & e1 & Heq & ->)|[(? & e1 & Heq & ->)|(e1 & Heq & ->)]];
    rewrite Heq in Hop; cbn in *; try done.
  specialize (Hh e1). lia.
Qed.

Lemma mono_try_finally {A} (body : M A) (fin : M ()) :
  mono body → mono fin → mono (try_finally body fin).
Proof.
  intros Hb Hf e. specialize (Hb e). unfold try_finally.
  destruct (body e) as [[[a|x|s|k] e1] t1]; cbn in *; try done;
    specialize (Hf e1); destruct (fin e1) as [[rf e2] t2]; cbn in *; lia.
Qed.

Lemma mono_stop_at room : mono (stop_at room).
Proof.
  induction room as [|n IH]; cbn [stop_at];
    (apply mono_try_finally; [|by intros e]);
    (apply mono_invoke_with; [|apply release_clock]).
  - by intros e.
  - apply mono_bind; [apply mono_logging | by intros _].
Qed.

Lemma mono_stop : mono stop.
Proof. intros e. apply mono_stop_at. Qed.

Lemma mono_interrupted : mono interrupted.
Proof. apply mono_bind; [apply mono_logging | intros _; apply mono_stop]. Qed.

Lemma mono_invoke {A} c (show : A → outcome) op :
  (∀ e, clock e ≤ clock (op e).2) → mono (invoke c show op).
Proof. apply mono_invoke_with, mono_interrupted. Qed.

Lemma mono_try_except {A} (body : M A) handler :
  mono body → (∀ x h, handler x = Some h → mono h) →
  mono (try_except body handler).
Proof.
  intros Hb Hh e. specialize (Hb e). unfold try_except.
  destruct (body e) as [[[a|x|s|k] e1] t1]; cbn in *; try done.
  destruct (handler x) as [h|] eqn:Hx; [|done].
  specialize (Hh x h Hx e1). destruct (h e1) as [[r e2] t2]. cbn in *. lia.
Qed.

Lemma mono_run_if_locking pw :
  0 ≤ lock_timeout (init pw) → mono (run_if_locking pw).
Proof.
  intros Htimeout.
  unfold run_if_locking, can_run, other_is_running, run, lock_is_locked,
    lock_i_am_locking, lock_expired, lock_break_lock, lock_acquire,
    lock_update_lock.
  repeat first
    [ apply mono_bind; [ | intros ?]
    | apply mono_ret | apply mono_logging | apply mono_lift | apply mono_stop
    | apply mono_invoke; intros ?;
      first [ apply is_locked_clock | apply i_am_locking_clock
            | apply expired_clock | apply break_lock_clock
            | by apply acquire_clock | apply update_lock_clock
            | apply discover_clock | apply get_servers_clock
            | apply balancer_update_clock | apply consume_clock ]
    | match goal with |- mono (if ?b then _ else _) => destruct b end ].
Qed.

(** A pass through the loop body that asks for another one has slept. *)
Lemma loop_body_sleeps pw e e2 t :
  0 ≤ lock_timeout (init pw) →
  loop_body pw e = (Ret Continue, e2, t) → clock e + 100000 ≤ clock e2.
Proof.
  intros Htimeout. unfold loop_body. unfold mbind at 1, M_bind at 1, bind at 1.
  assert (mono (try_except (run_if_locking pw ≫= λ _ : (), mret Continue)
                  except_clauses)) as Htry.
  { apply mono_try_except.
    - apply mono_bind; [by apply mono_run_if_locking | intros; apply mono_ret].
    - intros [] h Hh; simplify_eq/=;
        (apply mono_bind; [apply mono_logging | intros; apply mono_ret]). }
  specialize (Htry e).
  destruct (try_except _ _ e) as [[[[|]|x|s|k] e1] t1]; cbn in *; try done.
  destruct (sleep_clock 100000 e1) as [_ Hsleep]; [done|].
  unfold mbind, M_bind, bind.
  destruct (sleep_cases 100000 e1)
    as [(e3 & Hs & ->)|[(y & e3 & Hs & ->)|(e3 & e4 & ts & Hs & Hts & ->)]];
    cbn; try done.
  rewrite Hs in Hsleep. cbn in Hsleep. intros [= <- <-]. specialize (Hsleep eq_refl). lia.
Qed.

Lemma polling_enough_fuel pw :
  0 ≤ lock_timeout (init pw) →
  ∀ n e, death_time pw - clock e ≤ Z.of_nat n * 100000 →
    is_Some (polling (S n) pw e).
Proof.
  intros Htimeout. induction n as [|n IH]; intros e Hle; rewrite polling_S;
    destruct (now_clock e) as [He1 Ht];
    destruct (should_run_cases pw e)
      as [(t & e1 & Hnow & ->)|[(x & e1 & Hnow & ->)|
          (e1 & e2 & ts & Hnow & Hts & ->)]]; eauto;
    rewrite Hnow in He1, Ht; cbn in He1; specialize (Ht t eq_refl).
  - rewrite bool_decide_eq_false_2 by lia. eauto.
  - destruct (bool_decide (t < death_time pw)); [|eauto].
    pose proof (loop_body_sleeps pw e1) as Hbody.
    destruct (loop_body pw e1) as [[[[|]|x|s|k] e2] t2]; eauto.
    specialize (Hbody _ _ Htimeout eq_refl).
    destruct (IH e2) as [[[r e3] t3] Hrec]; [lia|].
    rewrite Hrec. cbn. eauto.
Qed.

(** More fuel does not change a result. *)
Lemma polling_more_fuel pw n e out :
  polling n pw e = Some out → polling (S n) pw e = Some out.
Proof.
  revert e out. induction n as [|n IH]; intros e out Hp; [done|].
  rewrite polling_S in Hp. rewrite polling_S.
  destruct (should_run pw e) as [[[[|]|x|s|k] e1] t1]; try done.
  destruct (loop_body pw e1) as [[[[|]|x|s|k] e2] t2]; try done.
  destruct (polling n pw e2) as [out'|] eqn:Hrec; [|done].
  by rewrite (IH _ _ Hrec).
Qed.

Lemma run_forever_more_fuel w n m e out :
  (n ≤ m)%nat → run_forever n w e = Some out → run_forever m w e = Some out.
Proof.
  intros Hle. induction Hle as [|m _ IH]; [done|]. intros Hrun.
  specialize (IH Hrun). unfold run_forever in *.
  destruct (setup w e) as [[[pw|x|s|k] e1] t1]; try done.
  destruct (polling m pw e1) as [out'|] eqn:Hp; [|done].
  by rewrite (polling_more_fuel _ _ _ _ Hp).
Qed.

Lemma run_forever_is_Some w n e :
  (∀ pw e1 t1, setup w e = (Ret pw, e1, t1) → is_Some (polling n pw e1)) →
  is_Some (run_forever n w e).
Proof.
  intros Hp. unfold run_forever.
  destruct (setup w e) as [[[pw|x|s|k] e1] t1]; eauto.
  destruct (Hp pw e1 t1 eq_refl) as [[[r2 e2] t2] ->].
  destruct r2 as [[]|x|s|k]; cbn; eauto. by destruct (stop e2) as [[? ?] ?].
Qed.

(** X14. With a clock that no call sets back and that each sleep moves
    forward, and a lock timeout that is not negative, [run_forever]
    terminates whatever the collaborators do: some number of iterations
    gives a result, any larger number gives the same one, and the run has
    ended in one of the three ways a run can end: by [sys.exit(0)] from
    [stop], by an exception raised outside the [try] statement, or killed
    by SIGTERM during [setup]. *)
Theorem run_forever_terminates w e :
  0 ≤ lock_timeout w →
  ∃ fuel r e' t,
    (∀ n, (fuel ≤ n)%nat → run_forever n w e = Some (r, e', t)) ∧
    match r with
    | Ret _ => False
    | Exit s => s = 0 ∧ (1 ≤ count is_release t)%nat
    | Raise x =>
        ∃ t0 c, t = t0 ++ [Call c (Raised x)] ∧ outside_try c = true
    | Killed s =>
        s = SIGTERM ∧
        ∃ t0 c, t = t0 ++ [Call c Interrupted] ∧ is_setup_call c
    end.
Proof.
  intros Htimeout.
  assert (∃ fuel, is_Some (run_forever fuel w e)) as (fuel & [[r e'] t] & Hrun).
  { destruct (setup w e) as [[[pw|x|s|k] e1] t1] eqn:Hsetup.
    2-4: exists 0%nat; apply run_forever_is_Some; intros ? ? ? Heq;
         by rewrite Hsetup in Heq.
    exists (S (Z.to_nat (death_time pw - clock e1))).
    apply run_forever_is_Some. intros pw' e1' t1' Heq.
    rewrite Hsetup in Heq. simplify_eq.
    pose proof (setup_fails w e) as Hinit. rewrite Hsetup in Hinit.
    apply polling_enough_fuel; [by rewrite Hinit | lia]. }
  exists fuel, r, e', t. split.
  - intros n Hn. by apply (run_forever_more_fuel _ fuel).
  - pose proof (run_forever_ends_well _ _ _ _ _ _ Hrun) as Hend.
    destruct r as [[]|x|s|k]; cbn in Hend; try done.
    + by destruct Hend as [_ ?].
    + destruct Hend as (-> & t0 & ts & -> & _ & Hts). split; [done|].
      rewrite count_app. pose proof (stopping_released _ Hts). lia.
    + destruct Hend as (-> & _ & t0 & c & -> & Hc & _). eauto.
Qed.

(** X13. A worker lives for 6000 ticks at most. With a clock that no call
    sets back, that [now] does not read ahead of, and that each sleep that
    returns moves forward by its duration, [run_forever] has ended after at
    most 6001 checks of [should_run], in one of the three ways a run can
    end: the time to live is at most 600 seconds and every tick that
    continues takes 0.1 second or more. *)
Theorem lifetime_bounded w e :
  0 ≤ lock_timeout w →
  (∀ e0 t, (now e0).1 = Ans t → t ≤ clock (now e0).2) →
  ∃ r e' t,
    run_forever (S (6 * 1000)) w e = Some (r, e', t) ∧
    match r with
    | Ret _ => False
    | Exit s => s = 0
    | Raise x =>
        ∃ t0 c, t = t0 ++ [Call c (Raised x)] ∧ outside_try c = true
    | Killed s =>
        s = SIGTERM ∧
        ∃ t0 c, t = t0 ++ [Call c Interrupted] ∧ is_setup_call c
    end.
Proof.
  intros Htimeout Hnow.
  assert (is_Some (run_forever (S (6 * 1000)) w e)) as [[[r e'] t] Hrun].
  { apply run_forever_is_Some. intros pw e1 t1 Hsetup.
    destruct (setup_returns _ _ _ _ _ Hsetup)
      as (ea & eb & ec & x & t0 & _ & _ & _ & Hread & -> & _).
    apply polling_enough_fuel; [done|]. cbn.
    specialize (Hnow ec t0). rewrite Hread in Hnow. cbn in Hnow.
    specialize (Hnow eq_refl).
    unfold timedelta_seconds, randint, MAX_TTL_IN_SECONDS.
    pose proof (Z.mod_pos_bound x (600 - 1 + 1)). lia. }
  exists r, e', t. split; [done|].
  pose proof (run_forever_ends_well _ _ _ _ _ _ Hrun) as Hend.
  destruct r as [[]|x|s|k]; cbn in Hend; try done.
  - by destruct Hend as [_ ?].
  - by destruct Hend as [? _].
  - destruct Hend as (-> & _ & t0 & c & -> & Hc & _). eauto.
Qed.

(** X15. A pass through the loop body that goes on to another tick takes
    0.1 second at least: when it ends the clock is 100000 microseconds or
    more past where it was. *)
Theorem tick_takes_a_tenth pw e e2 t :
  0 ≤ lock_timeout (init pw) →
  loop_body pw e = (Ret Continue, e2, t) → clock e + 100000 ≤ clock e2.
Proof. apply loop_body_sleeps. Qed.

End Termination.

(** ** The reference environment has a clock that moves *)

Lemma sim_step_clock (w : Sim.World) : Sim.clock (Sim.step w).2 = Sim.clock w.
Proof.
  unfold Sim.step. destruct (Sim.script w) as [|m rest]; [done|].
  destruct m; cbn; destruct (Sim.holder w) as [[holder renewed]|]; cbn;
    try done.
  by destruct (holder =? Sim.me w).
Qed.

Lemma sim_scheduled_clock {A} (k : Sim.World → answer A * Sim.World) w :
  (∀ w', Sim.clock w' ≤ Sim.clock (k w').2) →
  Sim.clock w ≤ Sim.clock (Sim.scheduled k w).2.
Proof.
  intros Hk. unfold Sim.scheduled. pose proof (sim_step_clock w) as Hstep.
  destruct (Sim.step w) as [m w1]. cbn in Hstep. rewrite <- Hstep.
  destruct m; cbn; try done; apply Hk.
Qed.

(** A scheduled call that returns has made its transition. *)
Lemma sim_scheduled_ans {A} (k : Sim.World → answer A * Sim.World) w a :
  (Sim.scheduled k w).1 = Ans a →
  ∃ w1, Sim.clock w1 = Sim.clock w ∧ Sim.scheduled k w = k w1 ∧
        (k w1).1 = Ans a.
Proof.
  unfold Sim.scheduled. pose proof (sim_step_clock w) as Hstep.
  destruct (Sim.step w) as [m w1]. cbn in Hstep.
  destruct m; cbn; try done; eauto.
Qed.

Lemma sim_acquire_clock timeout (w : Sim.World) :
  0 ≤ timeout → Sim.clock w ≤ Sim.clock (Sim.sim_acquire timeout w).2.
Proof.
  intros Htimeout. unfold Sim.sim_acquire, timedelta_seconds.
  destruct (Sim.holder w); cbn; lia.
Qed.

Lemma sim_update_clock (w : Sim.World) :
  Sim.clock (Sim.sim_update_lock w) = Sim.clock w.
Proof. unfold Sim.sim_update_lock. by destruct (Sim.sim_i_am_locking w). Qed.

Lemma sim_release_clock (w : Sim.World) :
  Sim.clock (Sim.sim_release_if_locking w) = Sim.clock w.
Proof. unfold Sim.sim_release_if_locking. by destruct (Sim.sim_i_am_locking w). Qed.

Lemma sim_now_clock (w : Sim.World) :
  Sim.clock w ≤ Sim.clock (now w).2 ∧
  ∀ t, (now w).1 = Ans t → Sim.clock w ≤ t.
Proof.
  split; [by apply sim_scheduled_clock|]. intros t Ht.
  apply sim_scheduled_ans in Ht as (w1 & Hclock & _ & Ht). cbn in Ht.
  injection Ht as <-. lia.
Qed.

Lemma sim_sleep_clock d (w : Sim.World) :
  0 ≤ d →
  Sim.clock w ≤ Sim.clock (sleep d w).2 ∧
  ((sleep d w).1 = Ans () → Sim.clock w + d ≤ Sim.clock (sleep d w).2).
Proof.
  intros Hd. split.
  - apply sim_scheduled_clock. intros w'. cbn. lia.
  - intros Hs. apply sim_scheduled_ans in Hs as (w1 & Hclock & Heq & _).
    cbn in Heq |- *. rewrite Heq. cbn. lia.
Qed.

#[global] Instance sim_timed
  : Timed Sim.World Sim.Catalog (list string) (list string).
Proof.
  refine {| clock := Sim.clock |}.
  - apply sim_now_clock.
  - apply sim_sleep_clock.
  - intros w. by apply sim_scheduled_clock.
  - intros w. by apply sim_scheduled_clock.
  - intros tol w. by apply sim_scheduled_clock.
  - intros w. by apply sim_scheduled_clock.
  - intros timeout w Htimeout. apply sim_scheduled_clock.
    intros w'. by apply sim_acquire_clock.
  - intros w. apply sim_scheduled_clock. intros w'. cbn.
    by rewrite sim_update_clock.
  - intros w. apply sim_scheduled_clock. intros w'. cbn.
    by rewrite sim_release_clock.
  - intros cfg w. by apply sim_scheduled_clock.
  - intros wp w. by apply sim_scheduled_clock.
  - intros paths w. by apply sim_scheduled_clock.
  - intros wp dest enc w. by apply sim_scheduled_clock.
Defined.

(** ** The worker on the reference environment *)

(** Scenario of the specification: catalog [{A, B, C}], rule
    [{output: X, inputs: [A, D]}]; the worker for [X] processes [{A}]. *)
Example composite_filtering :
  filter_playlists_for_worker Sim.worker_X Sim.abc =
    Ret {[ "streams" := {[ "A" := ["s1"] ]} ]}.
Proof. vm_compute. reflexivity. Qed.

(** Scenario: the holder crashed 31 seconds ago, the tolerance is 30
    seconds; the worker breaks the lock, acquires it and runs, all in one
    tick. *)
Example stale_tick :
  trace_of (run_if_locking Sim.pw_A Sim.stale) =
    [ Call IsLocked (ReturnedBool true);
      Call IAmLocking (ReturnedBool false);
      Call (Expired 30) (ReturnedBool true);
      Log WARNING "Lock expired. Breaking it";
      Call BreakLock Returned;
      Call IsLocked (ReturnedBool false);
      Call (Acquire 2) Returned;
      Call IAmLocking (ReturnedBool true);
      Call UpdateLock Returned;
      Call DiscoverPlaylists Returned;
      Call GetServers Returned;
      Call BalancerUpdate Returned;
      Call ConsumeFromBalancer Returned ].
Proof. vm_compute. reflexivity. Qed.

Lemma abdication_exits_process_witness :
  other_is_running (init Sim.pw_A) Sim.live =
    (Ret true, Sim.live,
     [ Call IsLocked (ReturnedBool true);
       Call IAmLocking (ReturnedBool false);
       Call (Expired 30) (ReturnedBool false) ]) ∧
  result_of (run_if_locking Sim.pw_A Sim.live) = Exit 0 ∧
  absent is_task (trace_of (run_if_locking Sim.pw_A Sim.live)).
Proof.
  assert (other_is_running (init Sim.pw_A) Sim.live =
    (Ret true, Sim.live,
     [ Call IsLocked (ReturnedBool true);
       Call IAmLocking (ReturnedBool false);
       Call (Expired 30) (ReturnedBool false) ])) as H
    by (vm_compute; reflexivity).
  split; [exact H|].
  destruct (abdication_exits_process Sim.pw_A Sim.live _ _ H)
    as (_ & e2 & ts & _ & _ & _ & _ & Hrun & _ & Htask & _).
  rewrite Hrun. split; [reflexivity | exact Htask].
Defined.

(** C2, as stated, fails: on the stale lock the tick that breaks the lock
    also acquires it. *)
Lemma acquires_in_the_breaking_tick :
  ¬ waits_for_next_tick Sim.pw_A Sim.stale.
Proof.
  intros Hclaim. destruct Hclaim as [_ Hnone].
  - exists Sim.stale, Sim.stale, Sim.stale. vm_compute. done.
  - apply absent_count in Hnone. vm_compute in Hnone. discriminate Hnone.
Qed.

Lemma stale_lock_broken_then_acquired_witness :
  is_locked Sim.stale = (Ans true, Sim.stale) ∧
  i_am_locking Sim.stale = (Ans false, Sim.stale) ∧
  expired 30 Sim.stale = (Ans true, Sim.stale) ∧
  break_lock Sim.stale = (Ans (), Sim.sim_break_lock Sim.stale) ∧
  is_locked (Sim.sim_break_lock Sim.stale) =
    (Ans false, Sim.sim_break_lock Sim.stale) ∧
  ∃ r e6 o t,
    can_run Sim.worker_A Sim.stale =
      (r, e6, stale_other 30 ++
              [ Call BreakLock Returned;
                Call IsLocked (ReturnedBool false);
                Call (Acquire 2) o ] ++ t).
Proof.
  assert (is_locked Sim.stale = (Ans true, Sim.stale)) as H1
    by (vm_compute; reflexivity).
  assert (i_am_locking Sim.stale = (Ans false, Sim.stale)) as H2
    by (vm_compute; reflexivity).
  assert (expired (lock_expiration Sim.worker_A) Sim.stale = (Ans true, Sim.stale))
    as H3 by (vm_compute; reflexivity).
  assert (break_lock Sim.stale = (Ans (), Sim.sim_break_lock Sim.stale)) as H4
    by (vm_compute; reflexivity).
  assert (is_locked (Sim.sim_break_lock Sim.stale) =
    (Ans false, Sim.sim_break_lock Sim.stale)) as H5
    by (vm_compute; reflexivity).
  repeat split; try assumption.
  exact (proj1 (proj2 (stale_lock_broken_then_acquired
                         Sim.worker_A _ _ _ _ _ H1 H2 H3 H4)) _ H5).
Defined.

Lemma break_lock_only_stale_other_witness :
  ∃ r e' t,
    run_forever 60 Sim.worker_A Sim.stale = Some (r, e', t) ∧
    count is_break t = 1%nat ∧
    preceded_by (stale_other 30) is_break t.
Proof.
  assert (∃ r e' t, run_forever 60 Sim.worker_A Sim.stale = Some (r, e', t)
                    ∧ count is_break t = 1%nat) as (r & e' & t & Hrun & Hcount)
    by (vm_compute; eexists _, _, _; split; reflexivity).
  exists r, e', t. split; [exact Hrun|]. split; [exact Hcount|].
  exact (proj2 (break_lock_only_stale_other Sim.worker_A) _ _ _ _ _ Hrun).
Defined.

(** This process holds the lock, renewed one millisecond ago: the tick
    renews it and runs the task from the renewed state. *)
Lemma renewal_then_task_witness :
  can_run (init Sim.pw_A) (Sim.world (Some (1, 0)) 1000 []) =
    (Ret true, Sim.world (Some (1, 0)) 1000 [],
     [ Call IsLocked (ReturnedBool true);
       Call IAmLocking (ReturnedBool true);
       Call IsLocked (ReturnedBool true);
       Call IAmLocking (ReturnedBool true) ]) ∧
  update_lock (Sim.world (Some (1, 0)) 1000 []) =
    (Ans (), Sim.world (Some (1, 1000)) 1000 []) ∧
  run_if_locking Sim.pw_A (Sim.world (Some (1, 0)) 1000 []) =
    (result_of (run Sim.pw_A (Sim.world (Some (1, 1000)) 1000 [])),
     (run Sim.pw_A (Sim.world (Some (1, 1000)) 1000 [])).1.2,
     [ Call IsLocked (ReturnedBool true);
       Call IAmLocking (ReturnedBool true);
       Call IsLocked (ReturnedBool true);
       Call IAmLocking (ReturnedBool true) ] ++
     Call UpdateLock Returned ::
     trace_of (run Sim.pw_A (Sim.world (Some (1, 1000)) 1000 []))).
Proof.
  assert (can_run (init Sim.pw_A) (Sim.world (Some (1, 0)) 1000 []) =
    (Ret true, Sim.world (Some (1, 0)) 1000 [],
     [ Call IsLocked (ReturnedBool true);
       Call IAmLocking (ReturnedBool true);
       Call IsLocked (ReturnedBool true);
       Call IAmLocking (ReturnedBool true) ])) as Hcan
    by (vm_compute; reflexivity).
  assert (update_lock (Sim.world (Some (1, 0)) 1000 []) =
    (Ans (), Sim.world (Some (1, 1000)) 1000 [])) as Hrenew
    by (vm_compute; reflexivity).
  split; [exact Hcan|]. split; [exact Hrenew|].
  destruct (proj1 (proj2 (proj2
              (renewal_then_task Sim.pw_A (Sim.world (Some (1, 0)) 1000 []))))
              _ _ Hcan) as (_ & _ & Hgranted & _).
  exact (Hgranted _ Hrenew).
Defined.

(** C5, as stated, fails: SIGTERM arrives during [is_locked], and again
    while the handler's [stop] is releasing; [release_if_locking] is
    called twice. *)
Lemma lock_released_twice :
  ¬ releases_exactly_once 5 Sim.worker_A
      (Sim.world None 0
         [ Sim.Quiet; Sim.Quiet; Sim.Quiet; Sim.Quiet; Sim.Quiet;
           Sim.Signal; Sim.Signal ]).
Proof.
  intros Hclaim.
  assert (∃ r e' t,
    run_forever 5 Sim.worker_A
      (Sim.world None 0
         [ Sim.Quiet; Sim.Quiet; Sim.Quiet; Sim.Quiet; Sim.Quiet;
           Sim.Signal; Sim.Signal ]) = Some (r, e', t) ∧
    count is_release t = 2%nat) as (r & e' & t & Hrun & Hcount)
    by (vm_compute; eexists _, _, _; split; reflexivity).
  specialize (Hclaim _ _ _ Hrun). rewrite Hcount in Hclaim. discriminate Hclaim.
Qed.

(** The same run: two signals, two releases, exit status 0. *)
Lemma release_on_every_stop_witness :
  ∃ e' t,
    run_forever 5 Sim.worker_A
      (Sim.world None 0
         [ Sim.Quiet; Sim.Quiet; Sim.Quiet; Sim.Quiet; Sim.Quiet;
           Sim.Signal; Sim.Signal ]) = Some (Exit 0, e', t) ∧
    count is_release t = 2%nat ∧
    ∃ t0 ts, t = t0 ++ ts ∧ absent is_release t0 ∧ stopping ts ∧
             count is_release t = S (count is_handler_log ts).
Proof.
  assert (∃ e' t,
    run_forever 5 Sim.worker_A
      (Sim.world None 0
         [ Sim.Quiet; Sim.Quiet; Sim.Quiet; Sim.Quiet; Sim.Quiet;
           Sim.Signal; Sim.Signal ]) = Some (Exit 0, e', t) ∧
    count is_release t = 2%nat) as (e' & t & Hrun & Hcount)
    by (vm_compute; eexists _, _; split; reflexivity).
  exists e', t. split; [exact Hrun|]. split; [exact Hcount|].
  destruct (proj1 (release_on_every_stop _ _ _ _ _ _ Hrun))
    as (_ & t0 & ts & Heq & H0 & Hts & Hn & _).
  exists t0, ts. repeat split; assumption.
Defined.


(** C7, as stated, fails: the tick raises an error, which is caught and
    logged; then Ctrl-C arrives during the sleep, outside the [try]
    statement, and ends the loop with [KeyboardInterrupt]. *)
Lemma ctrl_c_during_sleep_ends_the_loop :
  ¬ loop_never_raises 2 Sim.pw_A
      (Sim.world None 0
         [Sim.Quiet; Sim.Fail OtherError; Sim.Fail KeyboardInterrupt]).
Proof.
  intros Hclaim.
  assert (∃ e' t,
    polling 2 Sim.pw_A
      (Sim.world None 0
         [Sim.Quiet; Sim.Fail OtherError; Sim.Fail KeyboardInterrupt]) =
      Some (Raise KeyboardInterrupt, e', t)) as (e' & t & Hp)
    by (vm_compute; eexists _, _; reflexivity).
  exact (Hclaim _ _ _ Hp KeyboardInterrupt eq_refl).
Qed.

(** Another process takes the lock between [is_locked] and [acquire]. *)
Lemma tick_exception_caught_witness :
  should_run Sim.pw_A
    (Sim.world None 0 [Sim.Quiet; Sim.Quiet; Sim.Quiet; Sim.Grab 2]) =
    (Ret true, Sim.world None 0 [Sim.Quiet; Sim.Quiet; Sim.Grab 2],
     [Call DatetimeNow (ReturnedZ 0)]) ∧
  run_if_locking Sim.pw_A (Sim.world None 0 [Sim.Quiet; Sim.Quiet; Sim.Grab 2]) =
    (Raise LockTimeout, Sim.world (Some (2, 0)) 2000000 [],
     [ Call IsLocked (ReturnedBool false);
       Call IsLocked (ReturnedBool false);
       Call (Acquire 2) (Raised LockTimeout) ]) ∧
  loop_body Sim.pw_A (Sim.world None 0 [Sim.Quiet; Sim.Quiet; Sim.Grab 2]) =
    (Ret Continue, Sim.world (Some (2, 0)) 2100000 [],
     [ Call IsLocked (ReturnedBool false);
       Call IsLocked (ReturnedBool false);
       Call (Acquire 2) (Raised LockTimeout);
       Log DEBUG "Unable to acquire lock";
       Call Sleep Returned ]).
Proof.
  assert (should_run Sim.pw_A
    (Sim.world None 0 [Sim.Quiet; Sim.Quiet; Sim.Quiet; Sim.Grab 2]) =
    (Ret true, Sim.world None 0 [Sim.Quiet; Sim.Quiet; Sim.Grab 2],
     [Call DatetimeNow (ReturnedZ 0)])) as H1 by (vm_compute; reflexivity).
  assert (run_if_locking Sim.pw_A
            (Sim.world None 0 [Sim.Quiet; Sim.Quiet; Sim.Grab 2]) =
    (Raise LockTimeout, Sim.world (Some (2, 0)) 2000000 [],
     [ Call IsLocked (ReturnedBool false);
       Call IsLocked (ReturnedBool false);
       Call (Acquire 2) (Raised LockTimeout) ])) as H2
    by (vm_compute; reflexivity).
  assert (is_Exception LockTimeout = true) as H3 by reflexivity.
  assert (sleep 100000 (Sim.world (Some (2, 0)) 2000000 []) =
    (Ans (), Sim.world (Some (2, 0)) 2100000 [])) as H4
    by (vm_compute; reflexivity).
  split; [exact H1|]. split; [exact H2|].
  exact (proj1 (tick_exception_caught Sim.pw_A 0%nat _ _ _ _ _ _ _ H1 H2 H3 H4)).
Defined.

(** C8, as stated, fails: SIGTERM arrives during [setup], before the
    handler is installed, and kills the process. *)
Lemma sigterm_during_setup_kills :
  ¬ always_exits_zero 1 Sim.worker_A (Sim.world None 0 [Sim.Signal]).
Proof.
  intros Hclaim.
  assert (∃ e' t,
    run_forever 1 Sim.worker_A (Sim.world None 0 [Sim.Signal]) =
      Some (Killed SIGTERM, e', t)) as (e' & t & Hrun)
    by (vm_compute; eexists _, _; reflexivity).
  specialize (Hclaim _ _ _ Hrun). discriminate Hclaim.
Qed.

(** [release_if_locking] fails inside [stop]. *)
Lemma exit_status_zero_through_stop_witness :
  release_if_locking (Sim.world None 0 [Sim.Fail OtherError]) =
    (Throw OtherError, Sim.world None 0 []) ∧
  stop (Sim.world None 0 [Sim.Fail OtherError]) =
    (Exit 0, Sim.world None 0 [], [Call ReleaseIfLocking (Raised OtherError)]) ∧
  ∃ s e' t,
    run_forever 60 Sim.worker_A Sim.free = Some (Exit s, e', t) ∧ s = 0.
Proof.
  assert (release_if_locking (Sim.world None 0 [Sim.Fail OtherError]) =
    (Throw OtherError, Sim.world None 0 [])) as Hrel
    by (vm_compute; reflexivity).
  split; [exact Hrel|]. split.
  - exact (proj1 (proj2 exit_status_zero_through_stop) _ _ _ Hrel).
  - assert (∃ s e' t,
      run_forever 60 Sim.worker_A Sim.free = Some (Exit s, e', t))
      as (s & e' & t & Hrun) by (vm_compute; eexists _, _, _; reflexivity).
    exists s, e', t. split; [exact Hrun|].
    exact (proj1 (proj2 (proj2 exit_status_zero_through_stop))
             _ _ _ _ _ _ Hrun).
Defined.

Lemma selected_streams_spec_witness :
  is_variant Sim.worker_X = true ∧
  (∃ d, filter_playlists_for_worker Sim.worker_X Sim.abc =
          Ret {[ "streams" := d ]} ∧
        d ⊆ streams_of Sim.abc ∧
        ∀ s, s ∈ dom d ↔
             s ∈ dom (streams_of Sim.abc) ∧
             ∃ action, action ∈ get_actions Sim.abc "combine" ∧
                       output action = playlist Sim.worker_X ∧
                       s ∈ input action) ∧
  is_variant Sim.worker_A = false ∧
  streams_of Sim.abc !! playlist Sim.worker_A = Some ["s1"] ∧
  filter_playlists_for_worker Sim.worker_A Sim.abc =
    Ret {[ "streams" := {[ "A" := ["s1"] ]} ]}.
Proof.
  assert (is_variant Sim.worker_X = true) as HX by reflexivity.
  assert (is_variant Sim.worker_A = false) as HA by reflexivity.
  assert (streams_of Sim.abc !! playlist Sim.worker_A = Some ["s1"]) as Hin
    by (vm_compute; reflexivity).
  split; [exact HX|]. split.
  - exact (proj1 (selected_streams_spec Sim.worker_X Sim.abc) HX).
  - split; [exact HA|]. split; [exact Hin|].
    exact (proj1 (proj2 (proj2 (selected_streams_spec Sim.worker_A Sim.abc) HA))
             _ Hin).
Defined.

(** The playlist [Z] is not in the catalog. *)
Lemma unavailable_branch_unreachable_witness :
  is_variant Sim.worker_Z = false ∧
  streams_of Sim.abc !! playlist Sim.worker_Z = None ∧
  filter_playlists_for_worker Sim.worker_Z Sim.abc = Raise KeyError ∧
  result_of (run_if_locking Sim.pw_Z Sim.free) = Raise KeyError ∧
  ∃ e2 t,
    loop_body Sim.pw_Z Sim.free = (Ret Continue, e2, t) ∧
    absent is_release t ∧ absent is_unavailable t.
Proof.
  assert (is_variant Sim.worker_Z = false) as HZ by reflexivity.
  assert (streams_of Sim.abc !! playlist Sim.worker_Z = None) as Hout
    by (vm_compute; reflexivity).
  split; [exact HZ|]. split; [exact Hout|]. split.
  - exact (proj1 (proj2 (proj2 (proj2 unavailable_branch_unreachable)))
             Sim.worker_Z Sim.abc HZ Hout).
  - assert (∃ e1 t1 e2,
      run_if_locking Sim.pw_Z Sim.free = (Raise KeyError, e1, t1) ∧
      sleep 100000 e1 = (Ans (), e2) ∧ absent is_unavailable t1)
      as (e1 & t1 & e2 & Hrun & Hsleep & Hun)
      by (vm_compute; eexists _, _, _; repeat split; repeat constructor).
    split; [by rewrite Hrun|].
    destruct (proj2 (proj2 (proj2 (proj2 (proj2 unavailable_branch_unreachable))))
                Sim.pw_Z Sim.free e1 t1 e2 Hrun Hsleep) as [Hbody Hrel].
    eexists _, _. split; [exact Hbody|]. split.
    + by rewrite Hbody in Hrel.
    + apply absent_app; [exact Hun | by repeat constructor].
Defined.

(** The lock is free and the draw is 4: the run ends after fifty ticks. *)
Lemma run_forever_terminates_witness :
  0 ≤ lock_timeout Sim.worker_A ∧
  ∃ fuel r e' t,
    (∀ n, (fuel ≤ n)%nat →
       run_forever n Sim.worker_A Sim.free = Some (r, e', t)) ∧
    run_forever 60 Sim.worker_A Sim.free = Some (Exit 0, e', t).
Proof.
  assert (0 ≤ lock_timeout Sim.worker_A) as H by (vm_compute; discriminate).
  split; [exact H|].
  destruct (run_forever_terminates Sim.worker_A Sim.free H)
    as (fuel & r & e' & t & Hfuel & _).
  exists fuel, r, e', t. split; [exact Hfuel|].
  assert (∃ e0 t0, run_forever 60 Sim.worker_A Sim.free = Some (Exit 0, e0, t0))
    as (e0 & t0 & Hrun) by (vm_compute; eexists _, _; reflexivity).
  pose proof (Hfuel (fuel + 60)%nat ltac:(lia)) as Hbig.
  rewrite (run_forever_more_fuel _ 60 (fuel + 60) _ _ ltac:(lia) Hrun) in Hbig.
  by injection Hbig as <- <- <-.
Defined.

(** ** Further properties: how the lock is called *)

Ltac leaf ::=
  first [ done
        | by repeat constructor
        | by apply absent_preceded; repeat constructor
        | by apply absent_after; repeat constructor
        | by (repeat constructor; intros; simplify_eq) ].

Lemma configured_closed timeout tolerance : closed (configured timeout tolerance).
Proof. split; [by constructor | intros t1 t2 H1 H2; by apply Forall_app]. Qed.

Lemma handles_configured timeout tolerance :
  handles (configured timeout tolerance).
Proof. split; [apply configured_closed | split; [leaf | intros ?; leaf]]. Qed.

Lemma handles_acquire_guard :
  handles (preceded_by [Call IsLocked (ReturnedBool false)] is_acquire).
Proof. handles_tac. Qed.

Lemma handles_expired_guard :
  handles (preceded_by [ Call IsLocked (ReturnedBool true);
                         Call IAmLocking (ReturnedBool false) ] is_expired).
Proof. handles_tac. Qed.

Section LockCalls.
Context {E PL V P : Type} `{!Environment E PL V P}.
Implicit Types (e : E) (w : WorkerInit) (pw : PlaylistWorker).
Local Abbreviation emits := (emits (E:=E)).

Lemma other_is_running_expired w :
  emits (preceded_by [ Call IsLocked (ReturnedBool true);
                       Call IAmLocking (ReturnedBool false) ] is_expired)
    (other_is_running w).
Proof.
  intros e. unfold other_is_running, trace_of. exec.
  all: guarded [ Call IsLocked (ReturnedBool true);
                 Call IAmLocking (ReturnedBool false) ].
Qed.

Lemma can_run_acquires w :
  emits (preceded_by [Call IsLocked (ReturnedBool false)] is_acquire) (can_run w).
Proof.
  pose proof handles_acquire_guard as HQ.
  unfold can_run. apply emits_bind; [apply HQ | emits_tac HQ | intros other].
  apply emits_bind; [apply HQ | | intros ?; emits_tac HQ].
  destruct other; [emits_tac HQ|].
  intros e. unfold trace_of. exec.
  all: guarded [Call IsLocked (ReturnedBool false)].
Qed.

End LockCalls.

Ltac emits_known ::=
  lazymatch goal with
  | |- emits (preceded_by (stale_other _) is_break) (other_is_running _) =>
      apply other_is_running_breaks
  | |- emits (preceded_by _ is_expired) (other_is_running _) =>
      apply other_is_running_expired
  | |- emits (preceded_by _ is_acquire) (can_run _) =>
      apply can_run_acquires
  end.

Section LockGuards.
Context {E PL V P : Type} `{!Environment E PL V P}.
Implicit Types (e : E) (w : WorkerInit) (pw : PlaylistWorker).
Local Abbreviation emits := (emits (E:=E)).

(** X1. [acquire] is called only right after [is_locked] has answered
    false: the worker never tries to take a lock it has just seen held.
    This holds of every tick and of every run. *)
Theorem acquire_only_when_free w :
  (∀ pw e,
     preceded_by [Call IsLocked (ReturnedBool false)] is_acquire
       (trace_of (run_if_locking pw e))) ∧
  (∀ fuel e r e' t, run_forever fuel w e = Some (r, e', t) →
     preceded_by [Call IsLocked (ReturnedBool false)] is_acquire t).
Proof.
  pose proof handles_acquire_guard as HQ. split.
  - intros pw. change (emits (preceded_by [Call IsLocked (ReturnedBool false)]
                                is_acquire) (run_if_locking pw)).
    emits_tac HQ.
  - apply run_forever_emits; [done | emits_tac HQ | |]; intros pw _; emits_tac HQ.
Qed.

(** X2. [expired] is asked only right after [is_locked] answered true and
    [i_am_locking] answered false: the age of the claim is looked at only
    for a lock held by someone else. *)
Theorem expired_only_for_other w :
  (∀ pw e,
     preceded_by [ Call IsLocked (ReturnedBool true);
                   Call IAmLocking (ReturnedBool false) ] is_expired
       (trace_of (run_if_locking pw e))) ∧
  (∀ fuel e r e' t, run_forever fuel w e = Some (r, e', t) →
     preceded_by [ Call IsLocked (ReturnedBool true);
                   Call IAmLocking (ReturnedBool false) ] is_expired t).
Proof.
  pose proof handles_expired_guard as HQ. split.
  - intros pw. change (emits (preceded_by [ Call IsLocked (ReturnedBool true);
                   Call IAmLocking (ReturnedBool false) ] is_expired)
                   (run_if_locking pw)).
    emits_tac HQ.
  - apply run_forever_emits; [done | emits_tac HQ | |]; intros pw _; emits_tac HQ.
Qed.

(** X3. During a whole run every [acquire] is given the timeout read from
    the configuration by [setup_lock], and every [expired] the configured
    expiration tolerance. *)
Theorem lock_calls_configured fuel w e r e' t :
  run_forever fuel w e = Some (r, e', t) →
  configured (lock_timeout w) (lock_expiration w) t.
Proof.
  pose proof (handles_configured (lock_timeout w) (lock_expiration w)) as HQ.
  revert fuel e r e' t.
  apply run_forever_emits; [done | emits_tac HQ | |]; intros pw <-; emits_tac HQ.
Qed.

End LockGuards.

(** ** Further properties: signals, Ctrl-C and the pace of the loop *)

Lemma prompt_absent {A} (r : result A) (t : trace) :
  absent is_interruption t → prompt r t.
Proof.
  intros Ht pre c post -> . exfalso.
  assert (is_interruption (Call c Interrupted) = false) as Hc; [|done].
  apply (absent_elem _ _ _ Ht). apply elem_of_app; right. by left.
Qed.

(** A computation that did not exit was not interrupted. *)
Lemma prompt_quiet {A} (r : result A) (t : trace) :
  prompt r t → r ≠ Exit 0 → absent is_interruption t.
Proof.
  intros Hp Hr. apply Forall_forall. intros ev Hev.
  destruct (is_interruption ev) eqn:Hint; [|done].
  destruct ev as [c []|]; try done.
  apply list_elem_of_split in Hev as (pre & post & ->).
  by destruct (Hp pre c post eq_refl) as [? _].
Qed.

Lemma prompt_app {A} (r : result A) (t1 t2 : trace) :
  absent is_interruption t1 → prompt r t2 → prompt r (t1 ++ t2).
Proof.
  intros H1 H2 pre c post Heq.
  destruct (app_split_event _ _ _ _ _ Heq) as [(post1 & -> & ->)|(pre2 & -> & ->)].
  - exfalso.
    assert (is_interruption (Call c Interrupted) = false) as Hc; [|done].
    apply (absent_elem _ _ _ H1). apply elem_of_app; right. by left.
  - by apply (H2 pre2 c post).
Qed.

(** A signal that arrives while [stop] is releasing is followed by the
    handler's log lines and further releases only. *)
Lemma prompt_stopping {A} (ts : trace) :
  stopping ts → prompt (Exit 0 : result A) ts.
Proof.
  induction 1 as [o|ts Hts IH]; intros pre c post Heq.
  - destruct pre as [|? [|? ?]]; simplify_eq/=.
    split; [done|]. split; [constructor | done].
  - destruct pre as [|? [|? pre]]; simplify_eq/=.
    + split; [done|]. split; [|done].
      apply Forall_cons. split; [done | by apply stopping_shutdown].
    + by apply (IH pre c post).
Qed.

(** What follows the call that SIGTERM interrupted. *)
Lemma prompt_handled {A} c (ts : trace) :
  stopping ts →
  prompt (Exit 0 : result A)
    (Call c Interrupted :: Log INFO "Interrupted. Releasing lock." :: ts).
Proof.
  intros Hts pre c' post Heq.
  destruct pre as [|? [|? pre]]; simplify_eq/=.
  - split; [done|]. split; [|eauto].
    apply Forall_cons. split; [done | by apply stopping_shutdown].
  - by apply (prompt_stopping (A:=A) _ Hts pre c' post).
Qed.

Section Prompt.
Context {E PL V P : Type} `{!Environment E PL V P}.
Implicit Types (e : E) (w : WorkerInit) (pw : PlaylistWorker).
Local Abbreviation M := (M (E:=E)).
Local Abbreviation emits := (emits (E:=E)).
Local Abbreviation post := (post (E:=E)).

Lemma prompt_stop : post stop prompt.
Proof.
  intros e. destruct (stop_eq e) as (e1 & ts & -> & Hts).
  by apply prompt_stopping.
Qed.

Lemma prompt_ret {A} (a : A) : post (mret a : M A) prompt.
Proof. intros e. apply prompt_absent. constructor. Qed.

Lemma prompt_bind {A B} (m : M A) (f : A → M B) :
  post m prompt → (∀ a, post (f a) prompt) → post (m ≫= f) prompt.
Proof.
  intros Hm Hf e. specialize (Hm e).
  unfold mbind, M_bind, bind, trace_of, result_of in *.
  destruct (m e) as [[[a|x|s|k] e1] t1]; cbn in *.
  - specialize (Hf a e1). unfold trace_of, result_of in Hf.
    destruct (f a e1) as [[r e2] t2]. cbn in *.
    apply prompt_app; [by apply (prompt_quiet (Ret a)) | done].
  - intros pre c post Heq. by destruct (Hm pre c post Heq) as [? _].
  - intros pre c post Heq. destruct (Hm pre c post Heq) as [[= ->] ?]. done.
  - intros pre c post Heq. by destruct (Hm pre c post Heq) as [? _].
Qed.

Lemma prompt_quietly {A} (m : M A) :
  emits (absent is_interruption) m → post m prompt.
Proof. intros Hm e. apply prompt_absent, Hm. Qed.

Lemma prompt_invoke {A} c (show : A → outcome) op :
  (∀ a, show a ≠ Interrupted) → post (invoke c show op) prompt.
Proof.
  intros Hshow e. unfold trace_of, result_of.
  destruct (invoke_cases c show op e)
    as [(a & e1 & _ & ->)|[(x & e1 & _ & ->)|(e1 & e2 & ts & _ & Hts & ->)]];
    cbn.
  - apply prompt_absent. repeat constructor. specialize (Hshow a).
    by destruct (show a).
  - apply prompt_absent. repeat constructor.
  - by apply prompt_handled.
Qed.

Lemma prompt_sleep d : post (time_sleep d) prompt.
Proof. by apply prompt_invoke. Qed.

Lemma prompt_now : post (datetime_now interrupted) prompt.
Proof. by apply (prompt_invoke DatetimeNow ReturnedZ now). Qed.

Lemma prompt_try_except {A} (body : M A) handler :
  post body prompt → (∀ x h, handler x = Some h → post h prompt) →
  post (try_except body handler) prompt.
Proof.
  intros Hb Hh e. specialize (Hb e). unfold try_except, trace_of, result_of in *.
  destruct (body e) as [[[a|x|s|k] e1] t1]; cbn in *; try done.
  destruct (handler x) as [h|] eqn:Hx; [|done].
  specialize (Hh x h Hx e1). unfold trace_of, result_of in Hh.
  destruct (h e1) as [[r e2] t2]. cbn in *.
  apply prompt_app; [by apply (prompt_quiet (Raise x : result A)) | done].
Qed.

End Prompt.

Lemma handles_sleep : handles (absent is_sleep).
Proof. handles_tac. Qed.

Ltac prompt_step :=
  first
    [ progress unfold lock_is_locked, lock_i_am_locking, lock_expired,
        lock_break_lock, lock_acquire, lock_update_lock
    | lazymatch goal with
      | |- post (other_is_running _) _ => unfold other_is_running
      | |- post (can_run _) _ => unfold can_run
      | |- post (run _) _ => unfold run
      | |- post (run_if_locking _) _ => unfold run_if_locking
      | |- post (should_run _) _ => unfold should_run
      | |- post (loop_body _) _ => unfold loop_body
      | |- post (mbind _ _) _ => apply prompt_bind; [ | intros ?]
      | |- post (mret _) _ => apply prompt_ret
      | |- post (if ?b then _ else _) _ => destruct b
      | |- post (match ?fl with Continue => _ | Break => _ end) _ => destruct fl
      | |- post (invoke _ _ _) _ => apply prompt_invoke; by intros ?
      | |- post (time_sleep _) _ => apply prompt_sleep
      | |- post (datetime_now interrupted) _ => apply prompt_now
      | |- post (try_except _ _) _ =>
          apply prompt_try_except; [ | intros [] ? ?; simplify_eq/= ]
      | |- post (logging _ _) _ =>
          apply prompt_quietly, emits_logging; by repeat constructor
      | |- post (lift _) _ =>
          apply prompt_quietly, emits_lift, absent_closed
      | |- post stop _ => apply prompt_stop
      end ].

Section Pace.
Context {E PL V P : Type} `{!Environment E PL V P}.
Implicit Types (e : E) (w : WorkerInit) (pw : PlaylistWorker).
Local Abbreviation M := (M (E:=E)).
Local Abbreviation emits := (emits (E:=E)).
Local Abbreviation post := (post (E:=E)).

Lemma prompt_loop_body pw : post (loop_body pw) prompt.
Proof. repeat prompt_step. Qed.

Lemma prompt_should_run pw : post (should_run pw) prompt.
Proof. repeat prompt_step. Qed.

Lemma polling_prompt fuel pw e r e' t :
  polling fuel pw e = Some (r, e', t) → prompt r t.
Proof.
  revert e r e' t. induction fuel as [|n IH]; intros e r e' t Hp; [done|].
  rewrite polling_S in Hp.
  pose proof (prompt_should_run pw e) as Hs. unfold trace_of, result_of in Hs.
  destruct (should_run pw e) as [[[[|]|x|s|k] e1] t1]; cbn in Hs.
  2-3,5: simplify_eq; apply prompt_absent; by eapply prompt_quiet.
  2: { simplify_eq. intros pre c post Heq.
       by destruct (Hs pre c post Heq) as [[= ->] ?]. }
  pose proof (prompt_quiet _ _ Hs ltac:(done)) as Hq.
  pose proof (prompt_loop_body pw e1) as Hb. unfold trace_of, result_of in Hb.
  destruct (loop_body pw e1) as [[[[|]|x|s|k] e2] t2]; cbn in Hb.
  - destruct (polling n pw e2) as [[[r3 e3] t3]|] eqn:Hrec; [|done].
    cbn in Hp. simplify_eq. apply prompt_app; [|by eapply IH].
    apply absent_app; [done|]. by apply (prompt_quiet (Ret Continue)).
  - simplify_eq. apply prompt_absent, absent_app; [done|].
    by apply (prompt_quiet (Ret Break)).
  - simplify_eq. apply prompt_absent, absent_app; [done|].
    by apply (prompt_quiet (Raise x : result flow)).
  - simplify_eq. apply prompt_app; [done|]. intros pre c post Heq'.
    destruct (Hb pre c post Heq') as [[= ->] Hpost]. done.
  - simplify_eq. apply prompt_absent, absent_app; [done|].
    by apply (prompt_quiet (Killed k : result flow)).
Qed.

(** X4. SIGTERM is acted upon at once. Once the handler is installed,
    whatever call of a tick or of a run the signal interrupts, the handler's
    log line and [stop] follow and the process exits with status 0: after
    the signal come only that log line and calls of [release_if_locking]
    (one, and one more for each further signal that arrives during a
    release), no other lock call, no task call and no sleep. A signal that
    arrives during [setup], before the handler is installed, kills the
    process at that call. *)
Theorem sigterm_is_prompt :
  (∀ pw e pre c post,
     trace_of (loop_body pw e) = pre ++ Call c Interrupted :: post →
     result_of (loop_body pw e) = Exit 0 ∧
     absent (λ ev, negb (is_shutdown ev)) post ∧
     (c ≠ ReleaseIfLocking →
      ∃ ts, post = Log INFO "Interrupted. Releasing lock." :: ts ∧
            stopping ts)) ∧
  (∀ fuel w e r e' t pre c post,
     run_forever fuel w e = Some (r, e', t) →
     t = pre ++ Call c Interrupted :: post →
     (result_of (setup w e) = Killed SIGTERM ∧ r = Killed SIGTERM ∧
      is_setup_call c ∧ post = []) ∨
     ((∃ pw, result_of (setup w e) = Ret pw) ∧ r = Exit 0 ∧
      absent (λ ev, negb (is_shutdown ev)) post ∧
      (c ≠ ReleaseIfLocking →
       ∃ ts, post = Log INFO "Interrupted. Releasing lock." :: ts ∧
             stopping ts))).
Proof.
  split.
  - intros pw e. apply (prompt_loop_body pw e).
  - intros fuel w e r e' t pre c post Hrun Ht.
    pose proof (setup_fails w e) as Hfail.
    destruct (run_forever_split _ _ _ _ _ _ Hrun)
      as [(x & Hsetup & ->)|[(s & Hsetup & ->)|
          (pw & e1 & t1 & r2 & e2 & t2 & Hsetup & _ & Hp & Hcases)]];
      rewrite Hsetup in Hfail |- *.
    + exfalso. destruct Hfail as (t0 & c' & -> & _ & Hq).
      assert (is_interruption (Call c Interrupted) = false) as Hc; [|done].
      destruct (app_split_event _ _ _ _ _ Ht)
        as [(post1 & -> & _)|(pre2 & -> & Heq)].
      * apply (absent_elem _ _ _ Hq). apply elem_of_app; right. by left.
      * destruct pre2 as [|? [|? ?]]; simplify_eq/=.
    + left. destruct Hfail as (-> & t0 & c' & -> & Hc' & Hq).
      destruct (app_split_event _ _ _ _ _ Ht)
        as [(post1 & -> & _)|(pre2 & -> & Heq)].
      * exfalso.
        assert (is_interruption (Call c Interrupted) = false) as Hc; [|done].
        apply (absent_elem _ _ _ Hq). apply elem_of_app; right. by left.
      * destruct pre2 as [|? [|? ?]]; simplify_eq/=. done.
    + right. split; [by exists pw|].
      destruct (setup_returns _ _ _ _ _ Hsetup)
        as (ea & eb & ec & x & t0 & _ & _ & _ & _ & -> & ->).
      pose proof (polling_prompt _ _ _ _ _ _ Hp) as Hpr.
      assert (prompt r t) as Hprompt; [|by apply (Hprompt pre c post)].
      clear Ht pre c post.
      destruct Hcases as [(-> & ts & _ & Hts & -> & ->)|(-> & Hne & -> & ->)].
      * rewrite <- (assoc_L (++)). apply prompt_app; [by repeat constructor|].
        apply prompt_app; [by apply (prompt_quiet (Ret ()))|].
        by apply prompt_stopping.
      * apply prompt_app; [by repeat constructor | done].
Qed.

(** X5. Ctrl-C during a tick ends the loop without a crash: the
    [KeyboardInterrupt] is logged at debug level, the loop is left by
    [break] without sleeping, and [run_forever] goes on to [stop], which
    releases the lock and exits with status 0. *)
Theorem keyboard_interrupt_quits pw n e0 e1 t0 e2 t1 :
  should_run pw e0 = (Ret true, e1, t0) →
  run_if_locking pw e1 = (Raise KeyboardInterrupt, e2, t1) →
  loop_body pw e1 = (Ret Break, e2, t1 ++ [Log DEBUG "Quitting..."]) ∧
  polling (S n) pw e0 =
    Some (Ret (), e2, t0 ++ t1 ++ [Log DEBUG "Quitting..."]) ∧
  ∀ w e ts, setup w e = (Ret pw, e0, ts) →
    ∃ e3 tstop,
      stop e2 = (Exit 0, e3, tstop) ∧ stopping tstop ∧
      (∀ a e', release_if_locking e2 = (a, e') → a ≠ Sigterm →
         ∃ o, tstop = [Call ReleaseIfLocking o]) ∧
      run_forever (S n) w e =
        Some (Exit 0, e3,
              (ts ++ t0 ++ t1 ++ [Log DEBUG "Quitting..."]) ++ tstop).
Proof.
  intros Hshould Hrun.
  assert (loop_body pw e1 = (Ret Break, e2, t1 ++ [Log DEBUG "Quitting..."]))
    as Hbody.
  { unfold loop_body. unfold mbind at 1, M_bind at 1, bind at 1.
    rewrite (try_except_caught _ _ _ _ _ Hrun). cbn. by rewrite app_nil_r. }
  assert (polling (S n) pw e0 =
    Some (Ret (), e2, t0 ++ t1 ++ [Log DEBUG "Quitting..."])) as Hp.
  { rewrite polling_S. by rewrite Hshould, Hbody. }
  split; [done|]. split; [done|].
  intros w e ts Hsetup. unfold run_forever. rewrite Hsetup, Hp.
  destruct (stop_eq e2) as (e3 & tstop & Hstop & Hts). exists e3, tstop.
  split; [done|]. split; [done|]. split; [|by rewrite Hstop].
  intros a e' Hrel Ha. destruct a as [[]|x|]; [| |done].
  - rewrite (stop_returned _ _ Hrel) in Hstop. simplify_eq. eauto.
  - rewrite (stop_raised _ _ _ Hrel) in Hstop. simplify_eq. eauto.
Qed.

(** X6. The loop never spins: a pass through its body that goes on to
    another tick has slept once, [time.sleep(0.1)], as its last action; a
    pass that leaves the loop by [break] has not slept; a pass that ends
    with an exception ends with the one the sleep raised, the sleep being
    the only statement of the body outside the [try]; and no pass sleeps
    twice. *)
Theorem one_sleep_per_tick pw e :
  match result_of (loop_body pw e) with
  | Ret Continue =>
      ∃ t0, trace_of (loop_body pw e) = t0 ++ [Call Sleep Returned] ∧
            absent is_sleep t0
  | Ret Break => absent is_sleep (trace_of (loop_body pw e))
  | Raise x =>
      ∃ t0, trace_of (loop_body pw e) = t0 ++ [Call Sleep (Raised x)] ∧
            absent is_sleep t0
  | Exit _ => (count is_sleep (trace_of (loop_body pw e)) ≤ 1)%nat
  | Killed _ => False
  end.
Proof.
  pose proof (try_catches_all pw e) as Hnr.
  pose proof (clean_loop_body pw e) as Hclean.
  assert (emits (absent is_sleep)
            (try_except (run_if_locking pw ≫= λ _ : (), mret Continue)
               except_clauses)) as Htry.
  { pose proof handles_sleep as HQ. emits_tac HQ. }
  specialize (Htry e). unfold trace_of, result_of in Htry, Hnr.
  remember (loop_body pw e) as out eqn:Hout.
  unfold loop_body in Hout. unfold mbind at 1, M_bind at 1, bind at 1 in Hout.
  destruct (try_except _ _ e) as [[[[|]|x|s|k] e1] t1]; cbn in Hout, Htry.
  - unfold mbind, M_bind, bind in Hout.
    destruct (sleep_cases 100000 e1)
      as [(? & _ & Hs)|[(y & ? & _ & Hs)|(? & ? & ts & _ & Hts & Hs)]];
      rewrite Hs in Hout; subst out; cbn.
    + by exists t1.
    + by exists t1.
    + rewrite count_app, (absent_count _ _ Htry). cbn.
      rewrite (absent_count is_sleep ts); [lia | by apply stopping_absent].
  - subst out. cbn. by rewrite app_nil_r.
  - by destruct (Hnr x).
  - subst out. cbn. rewrite (absent_count _ _ Htry). lia.
  - subst out. done.
Qed.

End Pace.

(** ** Further properties: a tick from the lock to the task *)

Lemma gives_up_absent {A} (r : result A) (t : trace) :
  absent is_failed_acquire t → gives_up r t.
Proof.
  intros Ht pre tm x post ->. exfalso.
  assert (is_failed_acquire (Call (Acquire tm) (Raised x)) = false) as Hc; [|done].
  apply (absent_elem _ _ _ Ht). apply elem_of_app; right. by left.
Qed.

Lemma gives_up_quiet {A} (r : result A) (t : trace) :
  gives_up r t → (∀ x, r ≠ Raise x) → absent is_failed_acquire t.
Proof.
  intros Hg Hr. apply Forall_forall. intros ev Hev.
  destruct (is_failed_acquire ev) eqn:Hfail; [|done].
  destruct ev as [[] []|]; try done.
  apply list_elem_of_split in Hev as (pre & post & ->).
  destruct (Hg pre _ _ post eq_refl) as [_ ->]. by destruct (Hr x).
Qed.

Lemma gives_up_app {A} (r : result A) (t1 t2 : trace) :
  absent is_failed_acquire t1 → gives_up r t2 → gives_up r (t1 ++ t2).
Proof.
  intros H1 H2 pre tm x post Heq.
  destruct (app_split_event _ _ _ _ _ Heq) as [(post1 & -> & ->)|(pre2 & -> & ->)].
  - exfalso.
    assert (is_failed_acquire (Call (Acquire tm) (Raised x)) = false) as Hc;
      [|done].
    apply (absent_elem _ _ _ H1). apply elem_of_app; right. by left.
  - by apply (H2 pre2 tm x post).
Qed.

Lemma handles_failed_acquire : handles (absent is_failed_acquire).
Proof. handles_tac. Qed.

Section GivingUp.
Context {E PL V P : Type} `{!Environment E PL V P}.
Implicit Types (e : E) (w : WorkerInit) (pw : PlaylistWorker).
Local Abbreviation M := (M (E:=E)).
Local Abbreviation emits := (emits (E:=E)).
Local Abbreviation post := (post (E:=E)).

Lemma gives_up_bind {A B} (m : M A) (f : A → M B) :
  post m gives_up → (∀ a, post (f a) gives_up) → post (m ≫= f) gives_up.
Proof.
  intros Hm Hf e. specialize (Hm e).
  unfold mbind, M_bind, bind, trace_of, result_of in *.
  destruct (m e) as [[[a|x|s|k] e1] t1]; cbn in *.
  - specialize (Hf a e1). unfold trace_of, result_of in Hf.
    destruct (f a e1) as [[r e2] t2]. cbn in *.
    apply gives_up_app; [by apply (gives_up_quiet (Ret a)) | done].
  - intros pre tm y post Heq. by destruct (Hm pre tm y post Heq) as [-> [= ->]].
  - intros pre tm y post Heq. by destruct (Hm pre tm y post Heq) as [_ ?].
  - intros pre tm y post Heq. by destruct (Hm pre tm y post Heq) as [_ ?].
Qed.

Lemma gives_up_quietly {A} (m : M A) :
  emits (absent is_failed_acquire) m → post m gives_up.
Proof. intros Hm e. apply gives_up_absent, Hm. Qed.

Lemma gives_up_acquire timeout : post (lock_acquire timeout) gives_up.
Proof.
  intros e. unfold lock_acquire, trace_of, result_of.
  destruct (invoke_cases (Acquire timeout) (λ _ : (), Returned)
              (acquire timeout) e)
    as [(? & ? & _ & ->)|[(x & ? & _ & ->)|(? & ? & ts & _ & Hts & ->)]]; cbn.
  - apply gives_up_absent. repeat constructor.
  - intros pre tm y post Heq.
    destruct pre as [|? pre]; simplify_eq/=; [done | by destruct pre].
  - apply gives_up_absent. quiet.
Qed.

Lemma gives_up_run_if_locking pw : post (run_if_locking pw) gives_up.
Proof.
  pose proof handles_failed_acquire as HQ.
  unfold run_if_locking, can_run.
  apply gives_up_bind; [|intros granted; apply gives_up_quietly; emits_tac HQ].
  apply gives_up_bind; [apply gives_up_quietly; emits_tac HQ | intros other].
  apply gives_up_bind; [|intros ?; apply gives_up_quietly; emits_tac HQ].
  destruct other; [apply gives_up_quietly; emits_tac HQ|].
  apply gives_up_bind; [apply gives_up_quietly; emits_tac HQ | intros locked].
  destruct (negb locked); [apply gives_up_acquire|].
  apply gives_up_quietly. emits_tac HQ.
Qed.

(** X7. When [acquire] does not obtain the lock (it raises, [LockTimeout]
    or anything else), that call is the last interaction of the tick and
    the tick ends with that exception: no renewal, no task and not even the
    final [i_am_locking] follow. *)
Theorem failed_acquire_ends_tick pw e pre tm x post :
  trace_of (run_if_locking pw e) = pre ++ Call (Acquire tm) (Raised x) :: post →
  post = [] ∧ result_of (run_if_locking pw e) = Raise x.
Proof. apply (gives_up_run_if_locking pw e). Qed.

(** X8. A worker that holds the lock keeps it and works: when [is_locked]
    and [i_am_locking] answer true (twice, for [other_is_running] and for
    [can_run]) and the renewal returns, the tick asks nothing else of the
    lock (no [expired], no [break_lock], no [acquire]) and is followed by
    the task. *)
Theorem holder_renews_and_runs pw e e1 e2 e3 e4 e5 :
  is_locked e = (Ans true, e1) →
  i_am_locking e1 = (Ans true, e2) →
  is_locked e2 = (Ans true, e3) →
  i_am_locking e3 = (Ans true, e4) →
  update_lock e4 = (Ans (), e5) →
  run_if_locking pw e =
    (result_of (run pw e5), (run pw e5).1.2,
     [ Call IsLocked (ReturnedBool true);
       Call IAmLocking (ReturnedBool true);
       Call IsLocked (ReturnedBool true);
       Call IAmLocking (ReturnedBool true);
       Call UpdateLock Returned ] ++ trace_of (run pw e5)).
Proof.
  intros H1 H2 H3 H4 H5.
  unfold run_if_locking, can_run, other_is_running. unfold_lock.
  unfold mbind, M_bind, bind, mret, M_ret, ret.
  rewrite (invoke_ans _ _ _ _ _ _ H1). cbn.
  rewrite (invoke_ans _ _ _ _ _ _ H2). cbn.
  rewrite (invoke_ans _ _ _ _ _ _ H3). cbn.
  rewrite (invoke_ans _ _ _ _ _ _ H4). cbn.
  rewrite (invoke_ans _ _ _ _ _ _ H5). cbn.
  unfold result_of, trace_of. by destruct (run pw e5) as [[r e6] t].
Qed.

(** X9. The task runs its four steps in order and stops at the first that
    fails: [get_servers] is called only right after the discovery
    returned, the balancer is updated only right after [get_servers]
    returned, and [consume_from_balancer] is called only right after the
    update returned; each is called at most once. *)
Theorem task_steps_in_order pw e :
  let t := trace_of (run pw e) in
  preceded_by [Call DiscoverPlaylists Returned] is_get_servers t ∧
  preceded_by [Call GetServers Returned] is_balancer_update t ∧
  preceded_by [Call BalancerUpdate Returned] is_consume t ∧
  (count is_get_servers t ≤ 1 ∧ count is_balancer_update t ≤ 1 ∧
   count is_consume t ≤ 1)%nat.
Proof.
  cbn zeta. generalize (eq_refl (trace_of (run pw e))).
  generalize (trace_of (run pw e)) at 1 3 4 5 6 7 8. intros t.
  unfold run, trace_of. unfold mbind at 1, M_bind at 1, bind at 1.
  destruct (invoke_cases DiscoverPlaylists (λ _ : PL, Returned)
              (discover_playlists (config (init pw))) e)
    as [(playlists & e1 & _ & ->)|[(? & ? & _ & ->)|(? & ? & ts & _ & Hts & ->)]].
  2-3: cbn; intros ->; repeat split; try tally;
       by apply absent_preceded; quiet.
  unfold mbind at 1, M_bind at 1, bind at 1, lift.
  destruct (filter_playlists_for_worker (init pw) playlists)
    as [wp|x|s|k] eqn:Hf.
  2-4: cbn; intros ->; repeat split; try tally;
       by apply absent_preceded; quiet.
  apply filter_ret_streams in Hf as [d ->]. rewrite truthy_streams.
  exec.
  all: intros ->; repeat split; try tally.
  all: first [ guarded_in [Call DiscoverPlaylists Returned]
             | guarded_in [Call GetServers Returned]
             | guarded_in [Call BalancerUpdate Returned] ].
Qed.

End GivingUp.

(** ** Further properties: the selection, the lock file and the lifetime *)

Lemma append_inj_r (p a b : string) : p +:+ a = p +:+ b → a = b.
Proof. induction p as [|c p IH]; cbn; [done | intros [= Heq]; by apply IH]. Qed.

Section MoreSelection.
Context {E PL V P : Type} `{!Environment E PL V P}.
Implicit Types (e : E) (w : WorkerInit) (pw : PlaylistWorker).

(** X10. A variant worker none of whose inputs is in the catalog (or whose
    playlist no combine action produces) selects nothing:
    [filter_playlists_for_worker] returns [{"streams": {}}], and the task
    does not stop there but goes on to [get_servers] with the empty
    selection. *)
Theorem variant_without_streams w (playlists : PL) :
  is_variant w = true →
  (∀ action s, action ∈ get_actions playlists "combine" →
     output action = playlist w → s ∈ input action →
     streams_of playlists !! s = None) →
  filter_playlists_for_worker w playlists = Ret {[ "streams" := ∅ ]} ∧
  ∀ pw e e1, init pw = w →
    discover_playlists (config w) e = (Ans playlists, e1) →
    ∃ o rest, trace_of (run pw e) =
      Call DiscoverPlaylists Returned :: Call GetServers o :: rest.
Proof.
  intros Hv Habsent.
  assert (selected_streams w playlists = []) as Hsel.
  { apply elem_of_nil_inv. intros s Hs.
    apply (selected_streams_variant _ _ _ Hv) in Hs
      as [Hdom (action & Hin & Hout & Hs)].
    apply elem_of_dom in Hdom as [v Hlook].
    by rewrite (Habsent action s Hin Hout Hs) in Hlook. }
  assert (filter_playlists_for_worker w playlists = Ret {[ "streams" := ∅ ]})
    as Hf.
  { unfold filter_playlists_for_worker. by rewrite Hsel. }
  split; [done|]. intros pw e e1 <- Hdisc.
  unfold run, trace_of. unfold mbind at 1, M_bind at 1, bind at 1.
  rewrite (invoke_ans _ _ _ _ _ _ Hdisc).
  unfold mbind at 1, M_bind at 1, bind at 1, lift. rewrite Hf.
  rewrite truthy_streams. exec; eauto.
Qed.

(** X11. For a variant worker the selection depends on the combine actions
    only through the set of those whose output is the worker's playlist:
    their order, repetitions among them and the actions for other outputs
    play no part. Two discoveries with the same catalog that agree on
    these actions give the same result. *)
Theorem selection_ignores_order w (pl1 pl2 : PL) :
  streams_of pl1 = streams_of pl2 →
  (∀ action, output action = playlist w →
     (action ∈ get_actions pl1 "combine" ↔
      action ∈ get_actions pl2 "combine")) →
  filter_playlists_for_worker w pl1 = filter_playlists_for_worker w pl2.
Proof.
  intros Hcat Hactions. destruct (is_variant w) eqn:Hv.
  - assert (∀ s, s ∈ selected_streams w pl1 ↔ s ∈ selected_streams w pl2)
      as Hsame.
    { intros s. rewrite !(selected_streams_variant _ _ _ Hv), Hcat.
      split; intros [Hdom (action & Hin & Hout & Hs)]; (split; [done|]);
        exists action; (split; [|done]); by apply (Hactions action Hout). }
    destruct (dict_comprehension_ret (streams_of pl1)
                (selected_streams w pl1) ∅) as (d1 & Hd1 & Hlook1).
    { apply Forall_forall. intros s Hs.
      apply (selected_streams_variant _ _ _ Hv) in Hs as [Hs _].
      by apply elem_of_dom. }
    destruct (dict_comprehension_ret (streams_of pl2)
                (selected_streams w pl2) ∅) as (d2 & Hd2 & Hlook2).
    { apply Forall_forall. intros s Hs.
      apply (selected_streams_variant _ _ _ Hv) in Hs as [Hs _].
      by apply elem_of_dom. }
    unfold filter_playlists_for_worker. rewrite Hd1, Hd2.
    replace d2 with d1; [done|]. apply map_eq. intros k.
    rewrite Hlook1, Hlook2, Hcat.
    destruct (decide (k ∈ selected_streams w pl1)) as [Hk|Hk].
    + rewrite decide_True; [done | by apply Hsame].
    + rewrite decide_False; [done | by rewrite <- Hsame].
  - unfold filter_playlists_for_worker, selected_streams.
    by rewrite Hv, Hcat.
Qed.

(** X12. Workers whose configuration gives the same lock path prefix use
    the same lock file exactly when the MD5 digests of their playlist
    names are equal; whether the worker is a variant plays no part. *)
Theorem lock_path_per_playlist w1 w2 :
  cfg_lock_path (config w1) = cfg_lock_path (config w2) →
  (lock_path w1 = lock_path w2 ↔
   md5_hexdigest (playlist w1) = md5_hexdigest (playlist w2)).
Proof.
  intros Hcfg. unfold lock_path, worker_id. rewrite Hcfg. split.
  - intros Heq. by apply append_inj_r, append_inj_r in Heq.
  - by intros ->.
Qed.

End MoreSelection.

(** ** The further properties on the reference environment *)

(** The lock is free at first: the run acquires it once. *)
Lemma acquire_only_when_free_witness :
  ∃ r e' t,
    run_forever 60 Sim.worker_A Sim.free = Some (r, e', t) ∧
    count is_acquire t = 1%nat ∧
    preceded_by [Call IsLocked (ReturnedBool false)] is_acquire t.
Proof.
  assert (∃ r e' t, run_forever 60 Sim.worker_A Sim.free = Some (r, e', t)
                    ∧ count is_acquire t = 1%nat) as (r & e' & t & Hrun & Hcount)
    by (vm_compute; eexists _, _, _; split; reflexivity).
  exists r, e', t. split; [exact Hrun|]. split; [exact Hcount|].
  exact (proj2 (acquire_only_when_free Sim.worker_A) _ _ _ _ _ Hrun).
Defined.

(** The lock is held by process 2 and stale: its age is asked once. *)
Lemma expired_only_for_other_witness :
  ∃ r e' t,
    run_forever 60 Sim.worker_A Sim.stale = Some (r, e', t) ∧
    count is_expired t = 1%nat ∧
    preceded_by [ Call IsLocked (ReturnedBool true);
                  Call IAmLocking (ReturnedBool false) ] is_expired t.
Proof.
  assert (∃ r e' t, run_forever 60 Sim.worker_A Sim.stale = Some (r, e', t)
                    ∧ count is_expired t = 1%nat) as (r & e' & t & Hrun & Hcount)
    by (vm_compute; eexists _, _, _; split; reflexivity).
  exists r, e', t. split; [exact Hrun|]. split; [exact Hcount|].
  exact (proj2 (expired_only_for_other Sim.worker_A) _ _ _ _ _ Hrun).
Defined.

(** The lock is held by process 2 and stale: its age is asked with the
    tolerance 30, and it is acquired with the timeout 2 once broken. *)
Lemma lock_calls_configured_witness :
  ∃ r e' t,
    run_forever 60 Sim.worker_A Sim.stale = Some (r, e', t) ∧
    In (Call (Expired 30) (ReturnedBool true)) t ∧
    In (Call (Acquire 2) Returned) t ∧
    configured 2 30 t.
Proof.
  assert (∃ r e' t, run_forever 60 Sim.worker_A Sim.stale = Some (r, e', t)
                    ∧ In (Call (Expired 30) (ReturnedBool true)) t
                    ∧ In (Call (Acquire 2) Returned) t)
    as (r & e' & t & Hrun & Hexp & Hacq)
    by (vm_compute; eexists _, _, _; split; [reflexivity|]; split; tauto).
  exists r, e', t. split; [exact Hrun|]. split; [exact Hexp|].
  split; [exact Hacq|].
  exact (lock_calls_configured _ Sim.worker_A _ _ _ _ Hrun).
Defined.

(** SIGTERM arrives during [update_lock], once the lock is held. *)
Lemma sigterm_is_prompt_witness :
  ∃ e',
    run_forever 5 Sim.worker_A
      (Sim.world None 0
         [ Sim.Quiet; Sim.Quiet; Sim.Quiet; Sim.Quiet; Sim.Quiet; Sim.Quiet;
           Sim.Quiet; Sim.Quiet; Sim.Quiet; Sim.Signal ])
      = Some (Exit 0, e',
          [ Call SetupLogging Returned;
            Log DEBUG "HLS CLIENT Started for A";
            Call NewBalancer Returned;
            Call (RandomRandint 1 600) (ReturnedZ 5);
            Call DatetimeNow (ReturnedZ 0);
            Call DatetimeNow (ReturnedZ 0);
            Call IsLocked (ReturnedBool false);
            Call IsLocked (ReturnedBool false);
            Call (Acquire 2) Returned;
            Call IAmLocking (ReturnedBool true) ] ++
          Call UpdateLock Interrupted ::
          [ Log INFO "Interrupted. Releasing lock.";
            Call ReleaseIfLocking Returned ]) ∧
    Sim.holder e' = None ∧
    ∃ ts, [ Log INFO "Interrupted. Releasing lock.";
            Call ReleaseIfLocking Returned ] =
          Log INFO "Interrupted. Releasing lock." :: ts ∧ stopping ts.
Proof.
  assert (∃ e',
    run_forever 5 Sim.worker_A
      (Sim.world None 0
         [ Sim.Quiet; Sim.Quiet; Sim.Quiet; Sim.Quiet; Sim.Quiet; Sim.Quiet;
           Sim.Quiet; Sim.Quiet; Sim.Quiet; Sim.Signal ])
      = Some (Exit 0, e',
          [ Call SetupLogging Returned;
            Log DEBUG "HLS CLIENT Started for A";
            Call NewBalancer Returned;
            Call (RandomRandint 1 600) (ReturnedZ 5);
            Call DatetimeNow (ReturnedZ 0);
            Call DatetimeNow (ReturnedZ 0);
            Call IsLocked (ReturnedBool false);
            Call IsLocked (ReturnedBool false);
            Call (Acquire 2) Returned;
            Call IAmLocking (ReturnedBool true) ] ++
          Call UpdateLock Interrupted ::
          [ Log INFO "Interrupted. Releasing lock.";
            Call ReleaseIfLocking Returned ]) ∧
    Sim.holder e' = None) as (e' & Hrun & Hfree)
    by (vm_compute; eexists; split; reflexivity).
  exists e'. split; [exact Hrun|]. split; [exact Hfree|].
  destruct (proj2 sigterm_is_prompt _ _ _ _ _ _ _ _ _ Hrun eq_refl)
    as [(_ & Hkilled & _)|(_ & _ & _ & Hpost)]; [discriminate Hkilled|].
  apply Hpost. discriminate.
Defined.

(** Ctrl-C arrives during the first lock call of the first tick. *)
Lemma keyboard_interrupt_quits_witness :
  should_run Sim.pw_A
    (Sim.world None 0 [Sim.Quiet; Sim.Fail KeyboardInterrupt]) =
    (Ret true, Sim.world None 0 [Sim.Fail KeyboardInterrupt],
     [Call DatetimeNow (ReturnedZ 0)]) ∧
  run_if_locking Sim.pw_A (Sim.world None 0 [Sim.Fail KeyboardInterrupt]) =
    (Raise KeyboardInterrupt, Sim.world None 0 [],
     [Call IsLocked (Raised KeyboardInterrupt)]) ∧
  loop_body Sim.pw_A (Sim.world None 0 [Sim.Fail KeyboardInterrupt]) =
    (Ret Break, Sim.world None 0 [],
     [Call IsLocked (Raised KeyboardInterrupt)] ++ [Log DEBUG "Quitting..."]) ∧
  polling 1 Sim.pw_A (Sim.world None 0 [Sim.Quiet; Sim.Fail KeyboardInterrupt]) =
    Some (Ret (), Sim.world None 0 [],
          [Call DatetimeNow (ReturnedZ 0)] ++
          [Call IsLocked (Raised KeyboardInterrupt)] ++
          [Log DEBUG "Quitting..."]) ∧
  setup Sim.worker_A
    (Sim.world None 0
       [ Sim.Quiet; Sim.Quiet; Sim.Quiet; Sim.Quiet; Sim.Quiet;
         Sim.Fail KeyboardInterrupt ]) =
    (Ret Sim.pw_A, Sim.world None 0 [Sim.Quiet; Sim.Fail KeyboardInterrupt],
     setup_trace Sim.worker_A 4 0) ∧
  ∃ e3 tstop,
    stop (Sim.world None 0 []) = (Exit 0, e3, tstop) ∧
    run_forever 1 Sim.worker_A
      (Sim.world None 0
         [ Sim.Quiet; Sim.Quiet; Sim.Quiet; Sim.Quiet; Sim.Quiet;
           Sim.Fail KeyboardInterrupt ]) =
      Some (Exit 0, e3,
            (setup_trace Sim.worker_A 4 0 ++
             [Call DatetimeNow (ReturnedZ 0)] ++
             [Call IsLocked (Raised KeyboardInterrupt)] ++
             [Log DEBUG "Quitting..."]) ++ tstop).
Proof.
  assert (setup Sim.worker_A
    (Sim.world None 0
       [ Sim.Quiet; Sim.Quiet; Sim.Quiet; Sim.Quiet; Sim.Quiet;
         Sim.Fail KeyboardInterrupt ]) =
    (Ret Sim.pw_A, Sim.world None 0 [Sim.Quiet; Sim.Fail KeyboardInterrupt],
     setup_trace Sim.worker_A 4 0)) as H0 by (vm_compute; reflexivity).
  assert (should_run Sim.pw_A
    (Sim.world None 0 [Sim.Quiet; Sim.Fail KeyboardInterrupt]) =
    (Ret true, Sim.world None 0 [Sim.Fail KeyboardInterrupt],
     [Call DatetimeNow (ReturnedZ 0)])) as H1 by (vm_compute; reflexivity).
  assert (run_if_locking Sim.pw_A
            (Sim.world None 0 [Sim.Fail KeyboardInterrupt]) =
    (Raise KeyboardInterrupt, Sim.world None 0 [],
     [Call IsLocked (Raised KeyboardInterrupt)])) as H2
    by (vm_compute; reflexivity).
  split; [exact H1|]. split; [exact H2|].
  destruct (keyboard_interrupt_quits Sim.pw_A 0%nat _ _ _ _ _ H1 H2)
    as (Hbody & Hp & Hquit).
  split; [exact Hbody|]. split; [exact Hp|]. split; [exact H0|].
  destruct (Hquit _ _ _ H0) as (e3 & tstop & Hstop & _ & _ & Hrun).
  exists e3, tstop. split; [exact Hstop | exact Hrun].
Defined.

(** Another process takes the lock between [is_locked] and [acquire]. *)
Lemma failed_acquire_ends_tick_witness :
  trace_of (run_if_locking Sim.pw_A
              (Sim.world None 0 [Sim.Quiet; Sim.Quiet; Sim.Grab 2])) =
    [ Call IsLocked (ReturnedBool false); Call IsLocked (ReturnedBool false) ]
    ++ Call (Acquire 2) (Raised LockTimeout) :: [] ∧
  result_of (run_if_locking Sim.pw_A
               (Sim.world None 0 [Sim.Quiet; Sim.Quiet; Sim.Grab 2])) =
    Raise LockTimeout.
Proof.
  assert (trace_of (run_if_locking Sim.pw_A
              (Sim.world None 0 [Sim.Quiet; Sim.Quiet; Sim.Grab 2])) =
    [ Call IsLocked (ReturnedBool false); Call IsLocked (ReturnedBool false) ]
    ++ Call (Acquire 2) (Raised LockTimeout) :: []) as Htrace
    by (vm_compute; reflexivity).
  split; [exact Htrace|].
  exact (proj2 (failed_acquire_ends_tick _ _ _ _ _ _ Htrace)).
Defined.

(** This process holds the lock, renewed one millisecond ago. *)
Lemma holder_renews_and_runs_witness :
  is_locked (Sim.world (Some (1, 0)) 1000 []) =
    (Ans true, Sim.world (Some (1, 0)) 1000 []) ∧
  i_am_locking (Sim.world (Some (1, 0)) 1000 []) =
    (Ans true, Sim.world (Some (1, 0)) 1000 []) ∧
  update_lock (Sim.world (Some (1, 0)) 1000 []) =
    (Ans (), Sim.world (Some (1, 1000)) 1000 []) ∧
  run_if_locking Sim.pw_A (Sim.world (Some (1, 0)) 1000 []) =
    (result_of (run Sim.pw_A (Sim.world (Some (1, 1000)) 1000 [])),
     (run Sim.pw_A (Sim.world (Some (1, 1000)) 1000 [])).1.2,
     [ Call IsLocked (ReturnedBool true);
       Call IAmLocking (ReturnedBool true);
       Call IsLocked (ReturnedBool true);
       Call IAmLocking (ReturnedBool true);
       Call UpdateLock Returned ] ++
     trace_of (run Sim.pw_A (Sim.world (Some (1, 1000)) 1000 []))).
Proof.
  assert (is_locked (Sim.world (Some (1, 0)) 1000 []) =
    (Ans true, Sim.world (Some (1, 0)) 1000 [])) as H1
    by (vm_compute; reflexivity).
  assert (i_am_locking (Sim.world (Some (1, 0)) 1000 []) =
    (Ans true, Sim.world (Some (1, 0)) 1000 [])) as H2
    by (vm_compute; reflexivity).
  assert (update_lock (Sim.world (Some (1, 0)) 1000 []) =
    (Ans (), Sim.world (Some (1, 1000)) 1000 [])) as H3
    by (vm_compute; reflexivity).
  split; [exact H1|]. split; [exact H2|]. split; [exact H3|].
  exact (holder_renews_and_runs Sim.pw_A _ _ _ _ _ _ H1 H2 H1 H2 H3).
Defined.

(** No combine action of the catalog produces the playlist [Y]. *)
Lemma variant_without_streams_witness :
  is_variant Sim.worker_Y = true ∧
  filter_playlists_for_worker Sim.worker_Y Sim.abc =
    Ret {[ "streams" := ∅ ]} ∧
  ∃ o rest,
    trace_of (run (Sim.set_up Sim.worker_Y 5000000) Sim.free) =
      Call DiscoverPlaylists Returned :: Call GetServers o :: rest.
Proof.
  assert (is_variant Sim.worker_Y = true) as Hv by reflexivity.
  assert (∀ action s, action ∈ get_actions Sim.abc "combine" →
            output action = playlist Sim.worker_Y → s ∈ input action →
            streams_of Sim.abc !! s = None) as Habsent.
  { intros action s Hin Hout _. apply list_elem_of_singleton in Hin.
    subst action. discriminate Hout. }
  destruct (variant_without_streams Sim.worker_Y Sim.abc Hv Habsent)
    as [Hf Hrun].
  split; [exact Hv|]. split; [exact Hf|].
  exact (Hrun (Sim.set_up Sim.worker_Y 5000000) Sim.free Sim.free
           eq_refl eq_refl).
Defined.

(** The rule for [X] listed twice, with a rule for [W] in between. *)
Lemma selection_ignores_order_witness :
  get_actions Sim.abc "combine" ≠ get_actions Sim.abc_again "combine" ∧
  filter_playlists_for_worker Sim.worker_X Sim.abc =
    filter_playlists_for_worker Sim.worker_X Sim.abc_again.
Proof.
  assert (streams_of Sim.abc = streams_of Sim.abc_again) as Hcat
    by reflexivity.
  split; [discriminate|].
  apply (selection_ignores_order Sim.worker_X Sim.abc Sim.abc_again Hcat).
  intros action Hout. split; intros Hin.
  - apply list_elem_of_singleton in Hin. subst action. apply list_elem_of_here.
  - apply elem_of_cons in Hin as [->|Hin]; [apply list_elem_of_here|].
    apply elem_of_cons in Hin as [->|Hin]; [discriminate Hout|].
    exact Hin.
Defined.

(** A plain worker and a variant worker for the same playlist. *)
Lemma lock_path_per_playlist_witness :
  cfg_lock_path (config Sim.worker_A) =
    cfg_lock_path (config (new_worker "A" true Sim.cfg)) ∧
  (lock_path Sim.worker_A = lock_path (new_worker "A" true Sim.cfg) ↔
   md5_hexdigest (playlist Sim.worker_A) =
     md5_hexdigest (playlist (new_worker "A" true Sim.cfg))).
Proof.
  split; [reflexivity|].
  exact (lock_path_per_playlist Sim.worker_A (new_worker "A" true Sim.cfg)
           eq_refl).
Defined.

Lemma lifetime_bounded_witness :
  0 ≤ lock_timeout Sim.worker_A ∧
  (∀ (e0 : Sim.World) t, (now e0).1 = Ans t → t ≤ clock (now e0).2) ∧
  ∃ r e' t,
    run_forever (S (6 * 1000)) Sim.worker_A Sim.stale = Some (r, e', t) ∧
    ∀ a, r ≠ Ret a.
Proof.
  assert (0 ≤ lock_timeout Sim.worker_A) as Htimeout
    by (vm_compute; discriminate).
  assert (∀ (e0 : Sim.World) t, (now e0).1 = Ans t → t ≤ clock (now e0).2)
    as Hnow.
  { intros e0 t Ht. pose proof (sim_step_clock e0) as Hstep.
    apply sim_scheduled_ans in Ht as (w1 & Hclock & Heq & Ht).
    cbn in Ht, Heq |- *. rewrite Heq. cbn. injection Ht as <-. lia. }
  split; [exact Htimeout|]. split; [exact Hnow|].
  destruct (lifetime_bounded Sim.worker_A Sim.stale Htimeout Hnow)
    as (r & e' & t & Hrun & Hend).
  exists r, e', t. split; [exact Hrun|]. intros a Hr. by rewrite Hr in Hend.
Defined.

(** The lock is free: the first tick acquires it, runs the task and sleeps. *)
Lemma tick_takes_a_tenth_witness :
  ∃ e2 t,
    loop_body Sim.pw_A Sim.free = (Ret Continue, e2, t) ∧
    clock Sim.free + 100000 ≤ clock e2.
Proof.
  assert (0 ≤ lock_timeout (init Sim.pw_A)) as Htimeout
    by (vm_compute; discriminate).
  assert (∃ e2 t, loop_body Sim.pw_A Sim.free = (Ret Continue, e2, t))
    as (e2 & t & Hbody) by (vm_compute; eexists _, _; reflexivity).
  exists e2, t. split; [exact Hbody|].
  exact (tick_takes_a_tenth Sim.pw_A Sim.free e2 t Htimeout Hbody).
Defined.
